(** * dui: the immediate-mode UI state layer

    A shallow embedding of [src/DisplayList.hpp] and [src/State.hpp].

    - C++ [int] coordinates are integers of [Z] (the sums computed by
      [SDL_PointInRect] are taken without overflow, which is undefined
      behaviour in C);
    - [std::string] and [std::string_view] are lists of characters;
    - [std::vector<Item>] is a list, updated by index;
    - [SDL_assert] aborts the call: the operations that assert return an
      [option]. *)

From Stdlib Require Import ZArith Ascii String Lia.
From stdpp Require Import base list strings.

Open Scope Z_scope.

(** ** SDL types and helpers used by the sources *)

Record SDL_Point := { px : Z; py : Z }.
Record SDL_Rect := { rx : Z; ry : Z; rw : Z; rh : Z }.
Record SDL_Color := { cr : Z; cg : Z; cb : Z; ca : Z }.

(** [SDL_PointInRect], the inline helper of [SDL_rect.h]. *)
Definition SDL_PointInRect (p : SDL_Point) (r : SDL_Rect) : bool :=
  (rx r <=? px p) && (px p <? rx r + rw r) &&
  (ry r <=? py p) && (py p <? ry r + rh r).

(** [SDL_IntersectRect(&a, &b, nullptr)], the call that [clip] makes.
    SDL2 checks its three pointers before it looks at the rectangles:
    with a NULL [result] it reports an invalid parameter and answers
    [SDL_FALSE], whatever the rectangles are. *)
Definition SDL_IntersectRect_nullptr (a b : SDL_Rect) : bool := false.

(** ** DisplayList.hpp *)

Module DisplayList.

Record Item := { rect : SDL_Rect; color : SDL_Color; content : ascii }.

Record t := { items : list Item }.

Definition clear (d : t) : t := {| items := [] |}.

Definition size (d : t) : nat := length (items d).

Definition insert (r : SDL_Rect) (c : SDL_Color) (ch : ascii) (d : t) : t :=
  if 0 <? ca c then {| items := items d ++ [{| rect := r; color := c; content := ch |}] |}
  else d.

(** [std::find_if] on the index range [[i, i + n)] of a vector: the first
    position at which [p] holds, or the end of the range. *)
Fixpoint find_if (p : Item -> bool) (n : nat) (i : nat) (v : list Item) : nat :=
  match n with
  | O => i
  | S n' =>
      match v !! i with
      | None => i
      | Some x => if p x then i else find_if p n' (S i) v
      end
  end.

(** The loop of [std::remove_if]: every element for which [p] fails is
    assigned to the write position [w], which then advances.  [i] is the
    read position and [n] the number of elements still to read; the
    result is the vector and the last write position. *)
Fixpoint remove_if_loop (p : Item -> bool) (n : nat) (w i : nat)
    (v : list Item) : list Item * nat :=
  match n with
  | O => (v, w)
  | S n' =>
      match v !! i with
      | None => (v, w)
      | Some x =>
          if p x then remove_if_loop p n' w (S i) v
          else remove_if_loop p n' (S w) (S i) (<[w:=x]> v)
      end
  end.

(** [std::remove_if] on the index range [[first, last)]: [find_if] looks
    for the first element to remove, and the loop shifts the elements to
    keep that come after it. *)
Definition remove_if (p : Item -> bool) (first last : nat) (v : list Item)
    : list Item * nat :=
  let first := find_if p (last - first) first v in
  if (first =? last)%nat then (v, first)
  else remove_if_loop p (last - S first) first (S first) v.

(** [v.erase(it, v.end())] *)
Definition erase_to_end (it : nat) (v : list Item) : list Item := take it v.

Section Clip.

(** The answer of the call of [SDL_IntersectRect] in the lambda.  The
    program always gets [SDL_IntersectRect_nullptr]; [clip] is written
    over any answer, so that what holds of it does not depend on that. *)
Variable SDL_IntersectRect : SDL_Rect -> SDL_Rect -> bool.

Definition clip (r : SDL_Rect) (pos : nat) (d : t) : t :=
  if (size d <=? pos)%nat then d
  else
    let '(v, it) :=
      remove_if (fun item => negb (SDL_IntersectRect r (rect item)))
                pos (length (items d)) (items d) in
    {| items := erase_to_end it v |}.

End Clip.

(** The calls [render] makes on the renderer. *)
Inductive RenderCall :=
| SDL_SetRenderDrawColor (c : SDL_Color)
| SDL_RenderFillRect (r : SDL_Rect)
| characterRGBA (x y : Z) (ch : ascii) (c : SDL_Color).

(** What the body of the loop of [render] does for one item. *)
Definition renderItem (it : Item) : list RenderCall :=
  if bool_decide (content it = Ascii.zero)
  then [SDL_SetRenderDrawColor (color it); SDL_RenderFillRect (rect it)]
  else [characterRGBA (rx (rect it)) (ry (rect it)) (content it) (color it)].

(** [DisplayList::render]: the items are visited from [rbegin()] to
    [rend()]; the result is the sequence of calls made. *)
Definition render (d : t) : list RenderCall :=
  flat_map renderItem (reverse (items d)).

(** Every recorded item has a colour that is not fully transparent. *)
Definition visible (d : t) : Prop :=
  Forall (fun it => 0 < ca (color it)) (items d).

End DisplayList.

(** ** State.hpp *)

(** [std::string] as a list of characters, with the few operations the
    sources use.  Every [substr] and [operator[]] of the sources is guarded
    by a size test, so the positions are always within the string. *)
Abbreviation str := (list ascii).

Definition lit (s : string) : str := list_ascii_of_string s.

Definition empty (s : str) : bool :=
  match s with [] => true | _ :: _ => false end.

(** [s.substr(pos, count)] *)
Definition substr (pos count : nat) (s : str) : str := take count (drop pos s).

(** [s.substr(pos)] *)
Definition substr_from (pos : nat) (s : str) : str := drop pos s.

(** [s[i]] *)
Definition char_at (s : str) (i : nat) : ascii := default Ascii.zero (s !! i).

Definition str_eqb (a b : str) : bool := bool_decide (a = b).

Definition char_eqb (a b : ascii) : bool := bool_decide (a = b).

Definition groupNameSeparator : ascii := "/"%char.

Module MouseAction.
Inductive t := NONE | GRAB | HOLD | ACTION | CANCEL | DRAG.
End MouseAction.

Module TextAction.
Inductive t := NONE | INPUT | BACKSPACE.
End TextAction.

(** The fields of [class State], in the order of the source.  [renderer]
    and [font] are handles of the rendering library that no operation
    modelled here reads or writes; they are left out. *)
Record State := {
  inFrame : bool;
  dList : DisplayList.t;
  mPos : SDL_Point;
  mLeftPressed : bool;
  eGrabbed : str;
  mHovering : bool;
  mGrabbing : bool;
  mReleasing : bool;
  eActive : str;
  tBuffer : list ascii;
  tChanged : bool;
  tAction : TextAction.t;
  group : str;
  gGrabbed : bool;
  gActive : bool;
  ticksCount : Z
}.

(** Assignments to one field. *)
Definition set_inFrame (v : bool) (s : State) : State :=
  Build_State v (dList s) (mPos s) (mLeftPressed s) (eGrabbed s) (mHovering s) (mGrabbing s) (mReleasing s) (eActive s) (tBuffer s) (tChanged s) (tAction s) (group s) (gGrabbed s) (gActive s) (ticksCount s).
Definition set_dList (v : DisplayList.t) (s : State) : State :=
  Build_State (inFrame s) v (mPos s) (mLeftPressed s) (eGrabbed s) (mHovering s) (mGrabbing s) (mReleasing s) (eActive s) (tBuffer s) (tChanged s) (tAction s) (group s) (gGrabbed s) (gActive s) (ticksCount s).
Definition set_mPos (v : SDL_Point) (s : State) : State :=
  Build_State (inFrame s) (dList s) v (mLeftPressed s) (eGrabbed s) (mHovering s) (mGrabbing s) (mReleasing s) (eActive s) (tBuffer s) (tChanged s) (tAction s) (group s) (gGrabbed s) (gActive s) (ticksCount s).
Definition set_mLeftPressed (v : bool) (s : State) : State :=
  Build_State (inFrame s) (dList s) (mPos s) v (eGrabbed s) (mHovering s) (mGrabbing s) (mReleasing s) (eActive s) (tBuffer s) (tChanged s) (tAction s) (group s) (gGrabbed s) (gActive s) (ticksCount s).
Definition set_eGrabbed (v : str) (s : State) : State :=
  Build_State (inFrame s) (dList s) (mPos s) (mLeftPressed s) v (mHovering s) (mGrabbing s) (mReleasing s) (eActive s) (tBuffer s) (tChanged s) (tAction s) (group s) (gGrabbed s) (gActive s) (ticksCount s).
Definition set_mHovering (v : bool) (s : State) : State :=
  Build_State (inFrame s) (dList s) (mPos s) (mLeftPressed s) (eGrabbed s) v (mGrabbing s) (mReleasing s) (eActive s) (tBuffer s) (tChanged s) (tAction s) (group s) (gGrabbed s) (gActive s) (ticksCount s).
Definition set_mGrabbing (v : bool) (s : State) : State :=
  Build_State (inFrame s) (dList s) (mPos s) (mLeftPressed s) (eGrabbed s) (mHovering s) v (mReleasing s) (eActive s) (tBuffer s) (tChanged s) (tAction s) (group s) (gGrabbed s) (gActive s) (ticksCount s).
Definition set_mReleasing (v : bool) (s : State) : State :=
  Build_State (inFrame s) (dList s) (mPos s) (mLeftPressed s) (eGrabbed s) (mHovering s) (mGrabbing s) v (eActive s) (tBuffer s) (tChanged s) (tAction s) (group s) (gGrabbed s) (gActive s) (ticksCount s).
Definition set_eActive (v : str) (s : State) : State :=
  Build_State (inFrame s) (dList s) (mPos s) (mLeftPressed s) (eGrabbed s) (mHovering s) (mGrabbing s) (mReleasing s) v (tBuffer s) (tChanged s) (tAction s) (group s) (gGrabbed s) (gActive s) (ticksCount s).
Definition set_tBuffer (v : list ascii) (s : State) : State :=
  Build_State (inFrame s) (dList s) (mPos s) (mLeftPressed s) (eGrabbed s) (mHovering s) (mGrabbing s) (mReleasing s) (eActive s) v (tChanged s) (tAction s) (group s) (gGrabbed s) (gActive s) (ticksCount s).
Definition set_tChanged (v : bool) (s : State) : State :=
  Build_State (inFrame s) (dList s) (mPos s) (mLeftPressed s) (eGrabbed s) (mHovering s) (mGrabbing s) (mReleasing s) (eActive s) (tBuffer s) v (tAction s) (group s) (gGrabbed s) (gActive s) (ticksCount s).
Definition set_tAction (v : TextAction.t) (s : State) : State :=
  Build_State (inFrame s) (dList s) (mPos s) (mLeftPressed s) (eGrabbed s) (mHovering s) (mGrabbing s) (mReleasing s) (eActive s) (tBuffer s) (tChanged s) v (group s) (gGrabbed s) (gActive s) (ticksCount s).
Definition set_group (v : str) (s : State) : State :=
  Build_State (inFrame s) (dList s) (mPos s) (mLeftPressed s) (eGrabbed s) (mHovering s) (mGrabbing s) (mReleasing s) (eActive s) (tBuffer s) (tChanged s) (tAction s) v (gGrabbed s) (gActive s) (ticksCount s).
Definition set_gGrabbed (v : bool) (s : State) : State :=
  Build_State (inFrame s) (dList s) (mPos s) (mLeftPressed s) (eGrabbed s) (mHovering s) (mGrabbing s) (mReleasing s) (eActive s) (tBuffer s) (tChanged s) (tAction s) (group s) v (gActive s) (ticksCount s).
Definition set_gActive (v : bool) (s : State) : State :=
  Build_State (inFrame s) (dList s) (mPos s) (mLeftPressed s) (eGrabbed s) (mHovering s) (mGrabbing s) (mReleasing s) (eActive s) (tBuffer s) (tChanged s) (tAction s) (group s) (gGrabbed s) v (ticksCount s).
Definition set_ticksCount (v : Z) (s : State) : State :=
  Build_State (inFrame s) (dList s) (mPos s) (mLeftPressed s) (eGrabbed s) (mHovering s) (mGrabbing s) (mReleasing s) (eActive s) (tBuffer s) (tChanged s) (tAction s) (group s) (gGrabbed s) (gActive s) v.

(** [SDL_assert(c)]: the rest of the call runs only when [c] holds. *)
Definition SDL_assert {A : Type} (c : bool) (k : option A) : option A :=
  if c then k else None.

(** [State::isSameGroupId] *)
Definition isSameGroupId (s : State) (qualifiedId id : str) : bool :=
  let groupSize := length (group s) in
  if (length qualifiedId <? groupSize + 1)%nat then false
  else if negb (str_eqb (substr 0 groupSize qualifiedId) (group s))
          || negb (char_eqb (char_at qualifiedId groupSize) groupNameSeparator)
          || negb (str_eqb (substr_from (groupSize + 1) qualifiedId) id)
  then false
  else true.

(** [State::isActive] *)
Definition isActive (s : State) (id : str) : bool := isSameGroupId s (eActive s) id.

(** [State::checkText] *)
Definition checkText (s : State) (id : str) : TextAction.t :=
  if negb (tChanged s) || negb (isSameGroupId s (eActive s) id)
  then TextAction.NONE
  else tAction s.

(** [State::wantsMouse] and [State::wantsKeyboard] *)
Definition wantsMouse (s : State) : bool := mHovering s || negb (empty (eGrabbed s)).
Definition wantsKeyboard (s : State) : bool := negb (empty (eActive s)).

(** The string that [checkMouse] stores on a grab: [group], then the
    separator, then [id]. *)
Definition qualified (s : State) (id : str) : str :=
  (group s ++ [groupNameSeparator]) ++ id.

(** [State::checkMouse] *)
Definition checkMouse (id : str) (r : SDL_Rect) (s : State)
    : option (MouseAction.t * State) :=
  SDL_assert (inFrame s)
    (if empty (eGrabbed s) then
       if negb (mLeftPressed s) then Some (MouseAction.NONE, s)
       else if SDL_PointInRect (mPos s) r && negb (mGrabbing s) then
         let s := set_eGrabbed (qualified s id) s in
         let s := set_eActive (qualified s id) s in
         let s := set_gGrabbed true s in
         let s := set_gActive true s in
         let s := set_mGrabbing true s in
         Some (MouseAction.GRAB, s)
       else
         let s := if isSameGroupId s (eActive s) id then set_eActive [] s else s in
         Some (MouseAction.NONE, s)
     else if negb (isSameGroupId s (eGrabbed s) id) then Some (MouseAction.NONE, s)
     else
       let s := set_gGrabbed true s in
       if mLeftPressed s then
         if mGrabbing s then Some (MouseAction.GRAB, s)
         else if negb (SDL_PointInRect (mPos s) r) then Some (MouseAction.DRAG, s)
         else Some (MouseAction.HOLD, s)
       else
         let s := set_mReleasing true s in
         if negb (SDL_PointInRect (mPos s) r) then Some (MouseAction.CANCEL, s)
         else Some (MouseAction.ACTION, s)).

(** [State::beginFrame]; [ticks] is the value [SDL_GetTicks()] returns. *)
Definition beginFrame (ticks : Z) (s : State) : option State :=
  SDL_assert (negb (inFrame s))
    (let s := set_inFrame true s in
     let s := set_dList (DisplayList.clear (dList s)) s in
     let s := set_mHovering false s in
     Some (set_ticksCount ticks s)).

(** [State::endFrame] *)
Definition endFrame (s : State) : option State :=
  SDL_assert (inFrame s)
    (let s := set_inFrame false s in
     let s := set_tChanged false s in
     let s := set_mGrabbing false s in
     Some (if mReleasing s then set_mReleasing false (set_eGrabbed [] s) else s)).

(** The [DisplayList] that [State.hpp] is written against has two more
    methods, [popClip()] and [pushClip(rect)], which [DisplayList.hpp]
    does not define.  They act on [dList] alone and are taken as an
    interface. *)
Class ClipOps := {
  popClip : DisplayList.t -> DisplayList.t;
  pushClip : SDL_Rect -> DisplayList.t -> DisplayList.t
}.

Section Groups.

Context `{ClipOps}.

(** [State::beginGroup] *)
Definition beginGroup (id : str) (r : SDL_Rect) (s : State) : State :=
  let s := set_dList (popClip (dList s)) s in
  if empty id then s
  else
    let idSize := length id in
    let groupSize := length (group s) in
    let s :=
      if (0 <? groupSize)%nat then
        let s := set_group (group s ++ [groupNameSeparator]) s in
        let s :=
          if negb (gGrabbed s)
             || (length (eGrabbed s) <=? idSize + groupSize + 1)%nat
             || negb (str_eqb (substr groupSize (idSize + 1) (eGrabbed s)) id)
             || negb (char_eqb (char_at (eGrabbed s) (groupSize + idSize + 1))
                               groupNameSeparator)
          then set_gGrabbed false s else s in
        if negb (gActive s)
           || (length (eActive s) <=? idSize + groupSize + 1)%nat
           || negb (str_eqb (substr groupSize (idSize + 1) (eActive s)) id)
           || negb (char_eqb (char_at (eActive s) (groupSize + idSize + 1))
                             groupNameSeparator)
        then set_gActive false s else s
      else
        let s :=
          if (length (eGrabbed s) <=? idSize)%nat
             || negb (str_eqb (substr 0 idSize (eGrabbed s)) id)
             || negb (char_eqb (char_at (eGrabbed s) idSize) groupNameSeparator)
          then set_gGrabbed false s else set_gGrabbed true s in
        if (length (eActive s) <=? idSize)%nat
           || negb (str_eqb (substr 0 idSize (eActive s)) id)
           || negb (char_eqb (char_at (eActive s) idSize) groupNameSeparator)
        then set_gActive false s else set_gActive true s
    in
    set_group (group s ++ id) s.

(** [State::endGroup] *)
Definition endGroup (id : str) (r : SDL_Rect) (s : State) : option State :=
  let finish (s : State) := Some (set_dList (pushClip r (dList s)) s) in
  if empty id then finish s
  else if (length (group s) <=? length id)%nat then
    SDL_assert (str_eqb (group s) id)
      (let s := set_group [] s in
       let s := set_gGrabbed false s in
       let s := set_gActive (gGrabbed s) s in
       let s :=
         if negb (mHovering s) && SDL_PointInRect (mPos s) r
         then set_mHovering true s else s in
       finish s)
  else
    let groupSize := length (group s) in
    let nextSize := (groupSize - length id - 1)%nat in
    SDL_assert (char_eqb (char_at (group s) nextSize) groupNameSeparator)
      (SDL_assert (str_eqb (substr_from (nextSize + 1) (group s)) id)
         (let s := set_group (take nextSize (group s)) s in
          let s :=
            if negb (gGrabbed s)
               && (nextSize <? length (eGrabbed s))%nat
               && str_eqb (substr 0 nextSize (eGrabbed s)) (group s)
               && char_eqb (char_at (eGrabbed s) nextSize) groupNameSeparator
            then set_gGrabbed true s else s in
          let s :=
            if negb (gActive s)
               && (nextSize <? length (eActive s))%nat
               && str_eqb (substr 0 nextSize (eActive s)) (group s)
               && char_eqb (char_at (eActive s) nextSize) groupNameSeparator
            then set_gActive true s else s in
          finish s)).

End Groups.

(** The prefix that [beginGroup] leaves when called with [id] under the
    prefix [g]. *)
Definition enter (g id : str) : str :=
  if empty id then g
  else if (0 <? length g)%nat then (g ++ [groupNameSeparator]) ++ id
  else g ++ id.

(** *** Events *)

(** The constants of the SDL headers that [State::event] tests. *)
Definition SDL_BUTTON_LEFT : Z := 1.
Definition SDLK_BACKSPACE : Z := 8.
Definition SDL_TEXTINPUTEVENT_TEXT_SIZE : nat := 32.

(** [SDL_Event], a union tagged by [type]; only the members that
    [State::event] reads are kept.  [text] is the [char[32]] of a text
    input event; a shorter list reads as filled up with zeroes. *)
Inductive SDL_Event :=
| SDL_MOUSEBUTTONDOWN (x y : Z) (button : Z)
| SDL_MOUSEMOTION (x y : Z)
| SDL_MOUSEBUTTONUP (x y : Z) (button : Z)
| SDL_TEXTINPUT (text : list ascii)
| SDL_KEYDOWN (sym : Z)
| SDL_OTHEREVENT.

(** [c & mask] on a character. *)
Definition char_land (c : ascii) (mask : Z) : Z :=
  Z.land (Z.of_N (N_of_ascii c)) mask.

(** The loop of the text branch of [State::event]: [n] counts the
    iterations left before [i] reaches [SDL_TEXTINPUTEVENT_TEXT_SIZE]. *)
Fixpoint textLoop (n : nat) (i j : nat) (text buf : list ascii) : list ascii :=
  match n with
  | O => buf
  | S n' =>
      let buf := <[j := char_at text i]> buf in
      if char_eqb (char_at buf j) Ascii.zero then buf
      else if char_land (char_at buf j) 192 =? 128 then
        textLoop n' (S i) j text buf
      else
        let buf :=
          if negb (char_land (char_at buf j) 128 =? 0)
          then <[j := ascii_of_nat 15]> buf else buf in
        textLoop n' (S i) (S j) text buf
  end.

Arguments textLoop : simpl never.

(** [State::event] *)
Definition event (ev : SDL_Event) (s : State) : State :=
  match ev with
  | SDL_MOUSEBUTTONDOWN x y button =>
      let s := set_mPos {| px := x; py := y |} s in
      if button =? SDL_BUTTON_LEFT then set_mLeftPressed true s else s
  | SDL_MOUSEMOTION x y =>
      if negb (empty (eGrabbed s) && mLeftPressed s)
      then set_mPos {| px := x; py := y |} s else s
  | SDL_MOUSEBUTTONUP x y _ =>
      let s := set_mPos {| px := x; py := y |} s in
      set_mLeftPressed false s
  | SDL_TEXTINPUT text =>
      if empty (eActive s) then s
      else
        let s := set_tBuffer
                   (textLoop SDL_TEXTINPUTEVENT_TEXT_SIZE 0 0 text (tBuffer s)) s in
        let s := set_tChanged true s in
        set_tAction TextAction.INPUT s
  | SDL_KEYDOWN sym =>
      if sym =? SDLK_BACKSPACE
      then set_tAction TextAction.BACKSPACE (set_tChanged true s) else s
  | SDL_OTHEREVENT => s
  end.

(** *** Sequences of calls *)

(** The calls a host makes on a [State]. *)
Inductive Op :=
| OpEvent (ev : SDL_Event)
| OpBeginFrame (ticks : Z)
| OpEndFrame
| OpCheckMouse (id : str) (r : SDL_Rect)
| OpBeginGroup (id : str) (r : SDL_Rect)
| OpEndGroup (id : str) (r : SDL_Rect).

(** What a [checkMouse] call leaves in the log of a run: the fully
    qualified id it was made for and the action it returned. *)
Definition Answer : Type := str * MouseAction.t.

Section Runs.

Context `{ClipOps}.

Definition step (o : Op) (s : State) : option (list Answer * State) :=
  match o with
  | OpEvent ev => Some ([], event ev s)
  | OpBeginFrame ticks => s' ← beginFrame ticks s; Some ([], s')
  | OpEndFrame => s' ← endFrame s; Some ([], s')
  | OpCheckMouse id r =>
      '(a, s') ← checkMouse id r s; Some ([(qualified s id, a)], s')
  | OpBeginGroup id r => Some ([], beginGroup id r s)
  | OpEndGroup id r => s' ← endGroup id r s; Some ([], s')
  end.

Fixpoint run (ops : list Op) (s : State) : option (list Answer * State) :=
  match ops with
  | [] => Some ([], s)
  | o :: ops' =>
      '(log1, s1) ← step o s;
      '(log2, s2) ← run ops' s1;
      Some (log1 ++ log2, s2)
  end.

End Runs.

(** The calls made between [beginFrame] and [endFrame]. *)
Definition inFrameOp (o : Op) : bool :=
  match o with
  | OpBeginFrame _ | OpEndFrame => false
  | _ => true
  end.

(** Properly nested calls: every [beginGroup] is closed by the [endGroup]
    of the same id, as the constructor and [end()] of [Group] do; the
    rectangle may have been resized in between. *)
Inductive nested : list Op -> Prop :=
| nested_nil : nested []
| nested_event ev ops : nested ops -> nested (OpEvent ev :: ops)
| nested_check id r ops : nested ops -> nested (OpCheckMouse id r :: ops)
| nested_group id r r' body ops :
    nested body -> nested ops ->
    nested (OpBeginGroup id r :: body ++ OpEndGroup id r' :: ops).

(** A state as the constructor leaves it, outside any frame.  The
    constructor does not initialise [mPos], [tBuffer] and [ticksCount];
    they are taken as zeroes. *)
Definition initial : State :=
  {| inFrame := false;
     dList := {| DisplayList.items := [] |};
     mPos := {| px := 0; py := 0 |};
     mLeftPressed := false;
     eGrabbed := [];
     mHovering := false;
     mGrabbing := false;
     mReleasing := false;
     eActive := [];
     tBuffer := replicate SDL_TEXTINPUTEVENT_TEXT_SIZE Ascii.zero;
     tChanged := false;
     tAction := TextAction.NONE;
     group := [];
     gGrabbed := false;
     gActive := false;
     ticksCount := 0 |}.

(** An implementation of the clip interface that leaves the list alone,
    to run the group operations on concrete states. *)
Definition noClip : ClipOps :=
  {| popClip := fun d => d; pushClip := fun _ d => d |}.

(** ** More of State.hpp *)

(** A [char*] read as a string: the characters before the first zero. *)
Fixpoint c_str (buf : list ascii) : str :=
  match buf with
  | [] => []
  | c :: rest => if char_eqb c Ascii.zero then [] else c :: c_str rest
  end.

(** [State::getText] *)
Definition getText (s : State) : str := c_str (tBuffer s).

(** [State::Context].  [state] tells whether the pointer to the state is
    set; there is one state, threaded through the calls. *)
Module FrameContext.
Record t := { state : bool }.
End FrameContext.

(** [State::lockFrame], which builds a [Context]. *)
Definition lockFrame (ticks : Z) (s : State) : option (FrameContext.t * State) :=
  s' ← beginFrame ticks s; Some ({| FrameContext.state := true |}, s').

(** [Context::unlockFrame]; the destructor of [Context] is one more call
    of it. *)
Definition unlockFrame (c : FrameContext.t) (s : State)
    : option (FrameContext.t * State) :=
  if FrameContext.state c
  then s' ← endFrame s; Some ({| FrameContext.state := false |}, s')
  else Some (c, s).

(** What the text branch of [State::event] is meant to store: the input
    up to its first zero, without the bytes [10xxxxxx] that continue a
    character, and with [15] for any other byte above 127. *)
Fixpoint normalize (text : list ascii) : list ascii :=
  match text with
  | [] => []
  | c :: rest =>
      if char_eqb c Ascii.zero then []
      else if char_land c 192 =? 128 then normalize rest
      else (if negb (char_land c 128 =? 0) then ascii_of_nat 15 else c)
           :: normalize rest
  end.

(** The qualified id [q] lies below the prefix [g]: it is [g], the
    separator, and more. *)
Definition inGroup (g q : str) : Prop :=
  exists rest, q = g ++ [groupNameSeparator] ++ rest.

(** The ids of a chain of groups joined into a prefix: the first id, then
    every further id behind a separator. *)
Definition joinPath (ids : list str) : str :=
  match ids with
  | [] => []
  | id :: rest => id ++ flat_map (fun id' => groupNameSeparator :: id') rest
  end.

(** ** text.hpp *)

(** [struct Font] of [Font.hpp], without the texture handle. *)
Record Font := { charW : Z; charH : Z; cols : Z }.

(** A value converted to [int] (32 bits, two's complement) and to
    [size_t] (64 bits). *)
Definition to_int (z : Z) : Z := (z + 2 ^ 31) mod 2 ^ 32 - 2 ^ 31.
Definition to_size_t (z : Z) : Z := z mod 2 ^ 64.

(** [a << b] on [int]. *)
Definition shl (a b : Z) : Z := to_int (Z.shiftl a b).

(** [measure(char, font, scale)] *)
Definition measureChar (ch : ascii) (font : Font) (scale : Z) : SDL_Point :=
  {| px := shl (charW font) scale; py := shl (charH font) scale |}.

(** [measure(std::string_view, font, scale)]: the product is taken in
    [size_t] and converted back to [int]. *)
Definition measure (text : str) (font : Font) (scale : Z) : SDL_Point :=
  {| px := to_int (to_size_t (to_size_t (shl (charW font) scale)
                              * Z.of_nat (length text)));
     py := shl (charH font) scale |}.

(** The font that [loadDefaultFont] returns: 8 by 8 cells, 16 columns. *)
Definition defaultFont : Font := {| charW := 8; charH := 8; cols := 16 |}.

(** ** Concrete states

    The button ["btn"] of the root level with the rectangle
    [(10, 10, 20, 20)], at the moments of a click. *)

Definition btn : str := lit "btn".

Definition btnRect : SDL_Rect := {| rx := 10; ry := 10; rw := 20; rh := 20 |}.

(** In a frame, the button pressed at [(15, 15)], nothing grabbed yet. *)
Definition pressedState : State :=
  set_inFrame true (event (SDL_MOUSEBUTTONDOWN 15 15 SDL_BUTTON_LEFT) initial).

(** In a later frame: ["/btn"] grabbed and active, the button still down. *)
Definition heldState : State :=
  set_eActive (lit "/btn") (set_eGrabbed (lit "/btn") pressedState).

(** The state right after the grab of ["btn"], in the frame of the press. *)
Definition grabbedState : State :=
  set_mGrabbing true (set_gActive true (set_gGrabbed true heldState)).

(** In a frame, ["/btn"] grabbed, the button released at [(5, 5)]. *)
Definition releasedState : State :=
  event (SDL_MOUSEBUTTONUP 5 5 SDL_BUTTON_LEFT) heldState.

(** In a frame, nothing grabbed, the button up, ["/btn"] active. *)
Definition idleActiveState : State :=
  set_eActive (lit "/btn") (set_inFrame true initial).

(** In a frame, no group open, ["panel/list/item2"] grabbed. *)
Definition panelState : State :=
  set_eGrabbed (lit "panel/list/item2") (set_inFrame true initial).

(** Whether two rectangles have an intersection that is not empty: both
    have a positive size and they share a point.  This is what the
    description of [clip] speaks of, not what the call in [clip] answers. *)
Definition overlaps (a b : SDL_Rect) : bool :=
  (0 <? rw a) && (0 <? rh a) && (0 <? rw b) && (0 <? rh b)
  && (Z.max (rx a) (rx b) <? Z.min (rx a + rw a) (rx b + rw b))
  && (Z.max (ry a) (ry b) <? Z.min (ry a + rh a) (ry b + rh b)).

Definition boxAt (x y : Z) : DisplayList.Item :=
  {| DisplayList.rect := {| rx := x; ry := y; rw := 4; rh := 4 |};
     DisplayList.color := {| cr := 0; cg := 0; cb := 0; ca := 255 |};
     DisplayList.content := Ascii.zero |}.

(** Five commands; the third and the fifth overlap [btnRect]. *)
Definition fiveBoxes : DisplayList.t :=
  {| DisplayList.items :=
       [boxAt 100 100; boxAt 200 200; boxAt 12 12; boxAt 300 300;
        boxAt 8 8] |}.

(** * Properties *)

(** ** The display list *)

Module DisplayListFacts.
Import DisplayList.

Section RemoveIf.

Variable p : Item -> bool.

(** The loop invariant of [remove_if]: the vector is [kept ++ gap ++ todo],
    with the write position at the end of [kept] and the read position at
    the start of [todo]. *)
Lemma remove_if_loop_inv (todo kept gap : list Item) :
  exists rest,
    remove_if_loop p (length todo) (length kept) (length (kept ++ gap))
                   (kept ++ gap ++ todo)
    = ((kept ++ List.filter (fun x => negb (p x)) todo) ++ rest,
       length (kept ++ List.filter (fun x => negb (p x)) todo)).
Proof.
  revert kept gap.
  induction todo as [|x todo IH]; intros kept gap; simpl.
  - exists gap. by rewrite !app_nil_r.
  - rewrite (app_assoc kept gap (x :: todo)).
    rewrite list_lookup_middle by done.
    destruct (p x) eqn:Hp; simpl.
    + destruct (IH kept (gap ++ [x])) as [rest Hrest].
      exists rest. rewrite <- Hrest.
      rewrite <- !app_assoc. simpl.
      f_equal. rewrite !length_app. simpl. lia.
    + destruct gap as [|y gap].
      * destruct (IH (kept ++ [x]) []) as [rest Hrest].
        exists rest.
        rewrite app_nil_r, insert_app_r_alt, Nat.sub_diag by done. simpl.
        rewrite !app_nil_r in Hrest. simpl in Hrest.
        rewrite <- !app_assoc in Hrest. simpl in Hrest.
        rewrite <- !app_assoc. simpl.
        rewrite <- Hrest. f_equal; rewrite !length_app; simpl; lia.
      * destruct (IH (kept ++ [x]) (gap ++ [x])) as [rest Hrest].
        exists rest.
        rewrite <- app_assoc, insert_app_r_alt, Nat.sub_diag by done. simpl.
        rewrite <- !app_assoc in Hrest. simpl in Hrest.
        rewrite <- !app_assoc. simpl.
        rewrite <- Hrest. f_equal; rewrite !length_app; simpl.
        -- lia.
        -- rewrite !length_app. simpl. lia.
Qed.

(** [find_if] stops at the first element for which [p] holds: the range
    splits into the elements before it, which all fail [p], and the rest. *)
Lemma find_if_split (todo kept : list Item) :
  exists before rest,
    todo = before ++ rest
    /\ find_if p (length todo) (length kept) (kept ++ todo)
       = length (kept ++ before)
    /\ List.filter (fun x => negb (p x)) before = before
    /\ (rest = [] \/ exists x rest', rest = x :: rest' /\ p x = true).
Proof.
  revert kept. induction todo as [|x todo IH]; intros kept; simpl.
  - exists [], []. rewrite !app_nil_r. repeat split. by left.
  - rewrite list_lookup_middle by done.
    destruct (p x) eqn:Hp.
    + exists [], (x :: todo). rewrite !app_nil_r. repeat split.
      right. by exists x, todo.
    + destruct (IH (kept ++ [x])) as (before & rest & -> & Hf & Hkeep & Hrest).
      exists (x :: before), rest. simpl. rewrite Hp. simpl.
      rewrite <- !app_assoc in Hf. simpl in Hf.
      rewrite (length_app kept [x]), Nat.add_1_r in Hf.
      by rewrite Hf, Hkeep.
Qed.

(** [remove_if] followed by [erase]: the range is filtered in place. *)
Lemma remove_if_erase (first : nat) (v : list Item) :
  (first <= length v)%nat ->
  (let '(v', it) := remove_if p first (length v) v in erase_to_end it v')
  = take first v ++ List.filter (fun x => negb (p x)) (drop first v).
Proof.
  intros Hle. unfold remove_if, erase_to_end.
  destruct (find_if_split (drop first v) (take first v))
    as (before & rest & Hsplit & Hf & Hkeep & Hrest).
  rewrite take_drop, length_drop, length_take_le in Hf by done.
  rewrite Hf, Hsplit, List.filter_app, Hkeep.
  assert (v = take first v ++ before ++ rest) as Hv.
  { by rewrite <- Hsplit, take_drop. }
  assert (length v = length (take first v ++ before) + length rest)%nat
    as Hlen.
  { rewrite Hv at 1. rewrite !length_app. lia. }
  destruct Hrest as [->|(x & rest' & -> & Hp)].
  - simpl in Hlen. rewrite Nat.add_0_r in Hlen.
    rewrite Hlen, Nat.eqb_refl.
    rewrite app_nil_r in *. simpl.
    by rewrite take_ge, <- Hv by lia.
  - simpl in Hlen. simpl. rewrite Hp. simpl.
    assert ((length (take first v ++ before) =? length v)%nat = false) as ->.
    { apply Nat.eqb_neq. lia. }
    destruct (remove_if_loop_inv rest' (take first v ++ before) [x])
      as [tail Htail].
    assert (length v - S (length (take first v ++ before)) = length rest')%nat
      as -> by lia.
    assert (S (length (take first v ++ before))
            = length ((take first v ++ before) ++ [x])) as ->.
    { rewrite (length_app _ [x]). simpl. lia. }
    rewrite app_assoc. rewrite (app_assoc _ before) in Hv.
    set (k := take first v ++ before) in *. clearbody k.
    clear Hsplit Hf Hlen Hle. subst v. simpl in Htail.
    rewrite Htail. apply take_app_length.
Qed.

End RemoveIf.

Section Clip.

Variable SDL_IntersectRect : SDL_Rect -> SDL_Rect -> bool.

Lemma clip_items (r : SDL_Rect) (pos : nat) (d : t) :
  items (clip SDL_IntersectRect r pos d)
  = take pos (items d)
    ++ List.filter (fun item => SDL_IntersectRect r (rect item))
                   (drop pos (items d)).
Proof.
  unfold clip, size.
  destruct (length (items d) <=? pos)%nat eqn:Hpos.
  - apply Nat.leb_le in Hpos.
    rewrite take_ge, drop_ge by done. simpl. by rewrite app_nil_r.
  - apply Nat.leb_gt in Hpos.
    pose proof (remove_if_erase
      (fun item => negb (SDL_IntersectRect r (rect item))) pos (items d)) as E.
    destruct (remove_if _ pos (length (items d)) (items d)) as [v it].
    simpl. rewrite E by lia. f_equal.
    apply List.filter_ext. intros item. apply negb_involutive.
Qed.

End Clip.

End DisplayListFacts.

(** ** Strings and qualified ids *)

Section Strings.

Implicit Types (a b g id q : str).

Lemma empty_true a : empty a = true <-> a = [].
Proof. destruct a; simpl; split; congruence. Qed.

Lemma empty_false a : empty a = false <-> a <> [].
Proof. destruct a; simpl; split; congruence. Qed.

Lemma str_eqb_true a b : str_eqb a b = true <-> a = b.
Proof. unfold str_eqb. apply bool_decide_eq_true. Qed.

Lemma str_eqb_refl a : str_eqb a a = true.
Proof. by apply str_eqb_true. Qed.

Lemma char_eqb_true (c d : ascii) : char_eqb c d = true <-> c = d.
Proof. unfold char_eqb. apply bool_decide_eq_true. Qed.

Lemma char_at_middle g id (c : ascii) : char_at (g ++ c :: id) (length g) = c.
Proof. unfold char_at. by rewrite list_lookup_middle. Qed.

(** A string that has [g] in front, then [c], then [id]. *)
Lemma split_at_char q g id (c : ascii) :
  (length g < length q)%nat ->
  take (length g) q = g -> char_at q (length g) = c ->
  drop (length g + 1) q = id ->
  q = (g ++ [c]) ++ id.
Proof.
  intros Hlen Htake Hc Hdrop.
  destruct (lookup_lt_is_Some_2 q (length g) Hlen) as [c' Hc'].
  unfold char_at in Hc. rewrite Hc' in Hc. simpl in Hc. subst c'.
  rewrite <- (take_drop (length g) q) at 1.
  rewrite (drop_S _ _ _ Hc'), Htake, <- Nat.add_1_r, Hdrop.
  by rewrite <- app_assoc.
Qed.

Lemma qualified_nonempty s id : qualified s id <> [].
Proof. unfold qualified. destruct (group s); discriminate. Qed.

Lemma qualified_length s id :
  length (qualified s id) = (length (group s) + 1 + length id)%nat.
Proof. unfold qualified. rewrite !length_app. simpl. lia. Qed.

(** [isSameGroupId] tests exactly that the string is [group], the
    separator and [id]. *)
Lemma isSameGroupId_spec s q id :
  isSameGroupId s q id = true <-> q = qualified s id.
Proof.
  unfold isSameGroupId, substr, substr_from. rewrite drop_0.
  destruct (length q <? length (group s) + 1)%nat eqn:Hlen.
  - apply Nat.ltb_lt in Hlen. split; [discriminate|].
    intros ->. rewrite qualified_length in Hlen. lia.
  - apply Nat.ltb_ge in Hlen.
    destruct (str_eqb (take (length (group s)) q) (group s)) eqn:E1; simpl.
    2:{ split; [discriminate|]. intros ->. unfold qualified in E1.
        rewrite <- app_assoc, take_app_length, str_eqb_refl in E1. discriminate E1. }
    destruct (char_eqb (char_at q (length (group s))) groupNameSeparator) eqn:E2; simpl.
    2:{ split; [discriminate|]. intros ->. unfold qualified in E2.
        rewrite <- app_assoc in E2. simpl in E2.
        rewrite char_at_middle in E2.
        by apply not_true_iff_false in E2; destruct E2; apply char_eqb_true. }
    destruct (str_eqb (drop (length (group s) + 1) q) id) eqn:E3; simpl.
    2:{ split; [discriminate|]. intros ->. unfold qualified in E3.
        rewrite drop_app_length' in E3 by (rewrite length_app; simpl; lia).
        rewrite str_eqb_refl in E3. discriminate E3. }
    split; [intros _|done].
    apply split_at_char; [lia|by apply str_eqb_true|by apply char_eqb_true|
                          by apply str_eqb_true].
Qed.

Lemma isSameGroupId_qualified s id : isSameGroupId s (qualified s id) id = true.
Proof. by apply isSameGroupId_spec. Qed.

Lemma isSameGroupId_other s q id :
  q <> qualified s id -> isSameGroupId s q id = false.
Proof.
  intros Hne. apply not_true_iff_false. intros E.
  by apply isSameGroupId_spec in E.
Qed.

End Strings.

(** ** checkMouse *)

Section CheckMouse.

Implicit Types (s : State) (id : str) (r : SDL_Rect) (a : MouseAction.t).

(** Case analysis on the tests of [checkMouse]. *)
Ltac checkMouse_branches :=
  unfold checkMouse, SDL_assert;
  repeat case_match; simpl in *; simplify_eq/=.

Lemma checkMouse_total id r s :
  inFrame s = true -> exists a s', checkMouse id r s = Some (a, s').
Proof. intros Hin. checkMouse_branches; eauto. Qed.

Lemma checkMouse_needs_frame id r s a s' :
  checkMouse id r s = Some (a, s') -> inFrame s = true.
Proof. unfold checkMouse, SDL_assert. by destruct (inFrame s). Qed.

(** A call never changes the prefix, nor the frame flag. *)
Lemma checkMouse_group id r s a s' :
  checkMouse id r s = Some (a, s') ->
  group s' = group s /\ inFrame s' = inFrame s.
Proof. checkMouse_branches; intros; simplify_eq/=; done. Qed.

(** The grab branch, with the state it leaves. *)
Lemma checkMouse_grab id r s :
  inFrame s = true -> eGrabbed s = [] -> mLeftPressed s = true ->
  SDL_PointInRect (mPos s) r = true -> mGrabbing s = false ->
  checkMouse id r s
  = Some (MouseAction.GRAB,
          set_mGrabbing true
            (set_gActive true
               (set_gGrabbed true
                  (set_eActive (qualified s id)
                     (set_eGrabbed (qualified s id) s))))).
Proof.
  intros Hin Hg Hp Hr Hm. unfold checkMouse, SDL_assert.
  by rewrite Hin, Hg, Hp, Hr, Hm.
Qed.

(** The release branch, with the state it leaves. *)
Lemma checkMouse_release id r s :
  inFrame s = true -> eGrabbed s = qualified s id -> mLeftPressed s = false ->
  checkMouse id r s
  = Some (if SDL_PointInRect (mPos s) r
          then MouseAction.ACTION else MouseAction.CANCEL,
          set_mReleasing true (set_gGrabbed true s)).
Proof.
  intros Hin Hg Hp. unfold checkMouse, SDL_assert. rewrite Hin.
  destruct (empty (eGrabbed s)) eqn:He.
  { apply empty_true in He. rewrite He in Hg.
    symmetry in Hg. by apply qualified_nonempty in Hg. }
  rewrite Hg at 1. rewrite isSameGroupId_qualified. simpl. rewrite Hp.
  by destruct (SDL_PointInRect (mPos s) r).
Qed.

(** Nothing grabbed and the button up: the call returns at once. *)
Lemma checkMouse_idle id r s :
  inFrame s = true -> eGrabbed s = [] -> mLeftPressed s = false ->
  checkMouse id r s = Some (MouseAction.NONE, s).
Proof.
  intros Hin Hg Hp. unfold checkMouse, SDL_assert. by rewrite Hin, Hg, Hp.
Qed.

(** Nothing grabbed, the button down, and no grab by this call. *)
Lemma checkMouse_press_miss id r s :
  inFrame s = true -> eGrabbed s = [] -> mLeftPressed s = true ->
  SDL_PointInRect (mPos s) r && negb (mGrabbing s) = false ->
  checkMouse id r s
  = Some (MouseAction.NONE,
          if isSameGroupId s (eActive s) id then set_eActive [] s else s).
Proof.
  intros Hin Hg Hp Hr. unfold checkMouse, SDL_assert.
  by rewrite Hin, Hg, Hp, Hr.
Qed.

(** Where an answer other than [NONE] can come from, and what is grabbed
    after it. *)
Lemma checkMouse_answer id r s a s' :
  checkMouse id r s = Some (a, s') -> a <> MouseAction.NONE ->
  (eGrabbed s = qualified s id /\ eGrabbed s' = eGrabbed s)
  \/ (a = MouseAction.GRAB /\ eGrabbed s = [] /\ mLeftPressed s = true
      /\ SDL_PointInRect (mPos s) r = true /\ mGrabbing s = false
      /\ eGrabbed s' = qualified s id).
Proof.
  unfold checkMouse, SDL_assert. intros Hc Ha.
  destruct (inFrame s); [|done].
  destruct (empty (eGrabbed s)) eqn:He.
  - apply empty_true in He.
    destruct (mLeftPressed s); simpl in Hc; [|by simplify_eq].
    destruct (SDL_PointInRect (mPos s) r) eqn:Hr; simpl in Hc;
      [|by simplify_eq].
    destruct (mGrabbing s) eqn:Hm; simpl in Hc; simplify_eq/=.
    right. done.
  - destruct (isSameGroupId s (eGrabbed s) id) eqn:Hsame; simpl in Hc;
      [|by simplify_eq].
    apply isSameGroupId_spec in Hsame. left. split; [done|].
    repeat case_match; by simplify_eq/=.
Qed.

(** Once something is grabbed, a call leaves the grabbed id alone. *)
Lemma checkMouse_keeps_grabbed id r s a s' :
  eGrabbed s <> [] -> checkMouse id r s = Some (a, s') ->
  eGrabbed s' = eGrabbed s.
Proof.
  intros Hne. apply empty_false in Hne.
  unfold checkMouse, SDL_assert. rewrite Hne.
  repeat case_match; intros; by simplify_eq/=.
Qed.

End CheckMouse.

(** ** Groups *)

Section GroupFacts.

Context `{ClipOps}.

Implicit Types (s : State) (g id : str) (r : SDL_Rect).

Lemma beginGroup_group id r s :
  group (beginGroup id r s) = enter (group s) id.
Proof.
  unfold beginGroup, enter. simpl.
  destruct (empty id); [done|].
  destruct (0 <? length (group s))%nat; repeat case_match; done.
Qed.

(** [beginGroup] touches the prefix, the two flags and the list only. *)
Lemma beginGroup_frame id r s :
  inFrame (beginGroup id r s) = inFrame s
  /\ eGrabbed (beginGroup id r s) = eGrabbed s
  /\ eActive (beginGroup id r s) = eActive s.
Proof.
  unfold beginGroup. simpl.
  destruct (empty id); [done|].
  destruct (0 <? length (group s))%nat; repeat case_match; done.
Qed.

(** [endGroup] touches the prefix, the flags, the hover flag and the list
    only. *)
Lemma endGroup_frame id r s s' :
  endGroup id r s = Some s' ->
  inFrame s' = inFrame s /\ eGrabbed s' = eGrabbed s /\ eActive s' = eActive s.
Proof.
  unfold endGroup, SDL_assert.
  repeat case_match; intros; by simplify_eq/=.
Qed.

(** Closing the group that was just opened: no assertion fails and the
    prefix is the one from before the group. *)
Lemma endGroup_leaves g id r s :
  group s = enter g id ->
  exists s', endGroup id r s = Some s' /\ group s' = g.
Proof.
  unfold enter, endGroup, SDL_assert. intros Hg.
  destruct (empty id) eqn:Hid; [by eauto|].
  destruct (0 <? length g)%nat eqn:Hlen.
  - assert ((length (group s) <=? length id)%nat = false) as ->.
    { apply Nat.leb_gt. rewrite Hg, !length_app. simpl. lia. }
    assert (length (group s) - length id - 1 = length g)%nat as ->.
    { rewrite Hg, !length_app. simpl. lia. }
    assert (char_eqb (char_at (group s) (length g)) groupNameSeparator = true)
      as ->.
    { rewrite Hg, <- app_assoc. simpl. rewrite char_at_middle.
      by apply char_eqb_true. }
    assert (str_eqb (substr_from (length g + 1) (group s)) id = true) as ->.
    { unfold substr_from. rewrite Hg.
      rewrite drop_app_length' by (rewrite length_app; simpl; lia).
      apply str_eqb_refl. }
    assert (take (length g) (group s) = g) as Htake.
    { by rewrite Hg, <- app_assoc, take_app_length. }
    eexists. split; [done|]. by repeat case_match.
  - apply Nat.ltb_ge in Hlen. destruct g; [|simpl in Hlen; lia].
    simpl in Hg. rewrite Hg, Nat.leb_refl, str_eqb_refl.
    eexists. split; [done|]. by repeat case_match.
Qed.

(** The grabbed flag after [beginGroup], read off the code. *)
Lemma beginGroup_gGrabbed id r s :
  gGrabbed (beginGroup id r s)
  = if empty id then gGrabbed s
    else if (0 <? length (group s))%nat then
      if negb (gGrabbed s)
         || (length (eGrabbed s) <=? length id + length (group s) + 1)%nat
         || negb (str_eqb (substr (length (group s)) (length id + 1)
                                  (eGrabbed s)) id)
         || negb (char_eqb (char_at (eGrabbed s)
                                    (length (group s) + length id + 1))
                           groupNameSeparator)
      then false else gGrabbed s
    else
      if (length (eGrabbed s) <=? length id)%nat
         || negb (str_eqb (substr 0 (length id) (eGrabbed s)) id)
         || negb (char_eqb (char_at (eGrabbed s) (length id))
                           groupNameSeparator)
      then false else true.
Proof.
  unfold beginGroup. simpl.
  destruct (empty id); [done|].
  destruct (0 <? length (group s))%nat; simpl.
  - match goal with
    | |- context [if ?c then set_gGrabbed false _ else _] => destruct c
    end; simpl; by case_match.
  - match goal with
    | |- context [if ?c then set_gGrabbed false _ else _] => destruct c
    end; simpl; by case_match.
Qed.

(** The grabbed flag after [endGroup], read off the code. *)
Lemma endGroup_gGrabbed id r s s' :
  endGroup id r s = Some s' ->
  gGrabbed s'
  = if empty id then gGrabbed s
    else if (length (group s) <=? length id)%nat then false
    else
      let nextSize := (length (group s) - length id - 1)%nat in
      if negb (gGrabbed s)
         && (nextSize <? length (eGrabbed s))%nat
         && str_eqb (substr 0 nextSize (eGrabbed s))
                    (take nextSize (group s))
         && char_eqb (char_at (eGrabbed s) nextSize) groupNameSeparator
      then true else gGrabbed s.
Proof.
  unfold endGroup, SDL_assert.
  destruct (empty id); [by intros; simplify_eq/=|].
  destruct (length (group s) <=? length id)%nat.
  - destruct (str_eqb (group s) id); [|done]. simpl.
    case_match; intros; by simplify_eq/=.
  - simpl.
    destruct (char_eqb (char_at (group s) _) groupNameSeparator); [|done].
    destruct (str_eqb (substr_from _ (group s)) id); [|done].
    match goal with
    | |- context [if ?c then set_gGrabbed true _ else _] => destruct c
    end; simpl; case_match; intros; by simplify_eq/=.
Qed.

(** Entering a group below another one always clears the grabbed flag:
    the slice of the grabbed id that is compared with [id] starts at the
    separator and is one character longer than [id]. *)
Lemma beginGroup_below_clears_gGrabbed id r s :
  id <> [] -> group s <> [] -> gGrabbed (beginGroup id r s) = false.
Proof.
  intros Hid Hg. rewrite beginGroup_gGrabbed.
  apply empty_false in Hid. rewrite Hid.
  assert ((0 <? length (group s))%nat = true) as ->.
  { apply Nat.ltb_lt. destruct (group s); [done|simpl; lia]. }
  destruct (gGrabbed s); [simpl|done].
  destruct (length (eGrabbed s) <=? length id + length (group s) + 1)%nat
    eqn:Hlen; [done|]. simpl.
  apply Nat.leb_gt in Hlen.
  assert (str_eqb (substr (length (group s)) (length id + 1) (eGrabbed s)) id
          = false) as ->; [|done].
  apply not_true_iff_false. intros Heq%str_eqb_true.
  apply (f_equal length) in Heq. unfold substr in Heq.
  rewrite length_take_le in Heq by (rewrite length_drop; lia). lia.
Qed.


End GroupFacts.

(** ** Events *)

Section EventFacts.

Implicit Types (s : State) (ev : SDL_Event).

(** An event never touches the frame flag, the prefix or the grabbed id. *)
Lemma event_frame ev s :
  inFrame (event ev s) = inFrame s
  /\ group (event ev s) = group s
  /\ eGrabbed (event ev s) = eGrabbed s.
Proof. destruct ev; simpl; repeat case_match; done. Qed.

Lemma event_motion_frozen x y s :
  eGrabbed s = [] -> mLeftPressed s = true ->
  event (SDL_MOUSEMOTION x y) s = s.
Proof. intros Hg Hp. simpl. by rewrite Hg, Hp. Qed.

Lemma event_motion_moves x y s :
  empty (eGrabbed s) && mLeftPressed s = false ->
  event (SDL_MOUSEMOTION x y) s = set_mPos {| px := x; py := y |} s.
Proof. intros Hc. simpl. by rewrite Hc. Qed.

End EventFacts.

(** ** Runs *)

Section RunFacts.

Context `{ClipOps}.

Implicit Types (s : State) (ops : list Op) (log : list Answer).


Lemma run_app ops1 ops2 s :
  run (ops1 ++ ops2) s
  = '(log1, s1) ← run ops1 s;
    '(log2, s2) ← run ops2 s1;
    Some (log1 ++ log2, s2).
Proof.
  revert s. induction ops1 as [|o ops1 IH]; intros s; simpl.
  - by destruct (run ops2 s) as [[log2 s2]|].
  - destruct (step o s) as [[log1 s1]|]; simpl; [|done].
    rewrite IH. destruct (run ops1 s1) as [[log1' s1']|]; simpl; [|done].
    destruct (run ops2 s1') as [[log2 s2]|]; simpl; [|done].
    by rewrite app_assoc.
Qed.

(** Properly nested calls made in a frame run to the end, and leave the
    prefix as it was. *)
Lemma run_nested ops :
  nested ops -> forall s, inFrame s = true ->
  exists log s', run ops s = Some (log, s')
                 /\ group s' = group s /\ inFrame s' = true.
Proof.
  induction 1 as [|ev ops _ IH|id r ops _ IH|id r r' body ops _ IHb _ IHo];
    intros s Hin.
  - by exists [], s.
  - destruct (event_frame ev s) as (Hf & Hg & _).
    destruct (IH (event ev s)) as (log & s' & Hrun & Hg' & Hin');
      [congruence|].
    exists log, s'. simpl. rewrite Hrun. simpl. split; [done|]. split; congruence.
  - destruct (checkMouse_total id r s Hin) as (a & s1 & Hc).
    destruct (checkMouse_group _ _ _ _ _ Hc) as [Hg Hf].
    destruct (IH s1) as (log & s' & Hrun & Hg' & Hin'); [congruence|].
    exists ((qualified s id, a) :: log), s'. simpl. rewrite Hc. simpl.
    rewrite Hrun. simpl. split; [done|]. split; congruence.
  - destruct (beginGroup_frame id r s) as (Hf & _).
    destruct (IHb (beginGroup id r s)) as (log1 & s1 & Hrun1 & Hg1 & Hin1);
      [congruence|].
    rewrite beginGroup_group in Hg1.
    destruct (endGroup_leaves _ _ r' _ Hg1) as (s2 & Hend & Hg2).
    destruct (endGroup_frame _ _ _ _ Hend) as (Hf2 & _).
    destruct (IHo s2) as (log2 & s3 & Hrun2 & Hg3 & Hin3); [congruence|].
    exists (log1 ++ log2), s3. simpl. rewrite run_app, Hrun1. simpl.
    rewrite Hend. simpl. rewrite Hrun2. simpl.
    split; [done|]. split; congruence.
Qed.

(** No call but [endFrame] changes a grabbed id. *)
Lemma step_keeps_grabbed o s log s' :
  o <> OpEndFrame -> eGrabbed s <> [] -> step o s = Some (log, s') ->
  eGrabbed s' = eGrabbed s.
Proof.
  intros Ho Hne. destruct o as [ev|ticks| |id r|id r|id r]; simpl; intros Hs.
  - simplify_eq. apply event_frame.
  - unfold beginFrame, SDL_assert in Hs.
    destruct (inFrame s); by simplify_eq/=.
  - done.
  - destruct (checkMouse id r s) as [[a s1]|] eqn:Hc; simplify_eq/=.
    by eapply checkMouse_keeps_grabbed.
  - simplify_eq. apply beginGroup_frame.
  - destruct (endGroup id r s) as [s1|] eqn:He; simplify_eq/=.
    by eapply endGroup_frame.
Qed.




End RunFacts.

(** * The claims *)

Section MouseClaims.

Context `{ClipOps}.

Implicit Types (s : State) (id : str) (r : SDL_Rect) (a : MouseAction.t).

(** C1.  Whatever calls were made before, [checkMouse(id, rect)] answers
    something other than [NONE] only if the fully qualified form of [id]
    is the grabbed id, or, for the first [GRAB], if nothing is grabbed, the
    left button is pressed, the pointer is inside [rect] and no grab
    occurred yet in the frame.  In particular the answer is [NONE] when
    another element is grabbed, whatever the rectangle. *)
Theorem checkMouse_only_for_grabbed (ops : list Op) (log : list Answer)
    s0 s s' id r a :
  run ops s0 = Some (log, s) ->
  checkMouse id r s = Some (a, s') ->
  (a <> MouseAction.NONE ->
   qualified s id = eGrabbed s
   \/ (a = MouseAction.GRAB /\ eGrabbed s = [] /\ mLeftPressed s = true
       /\ SDL_PointInRect (mPos s) r = true /\ mGrabbing s = false))
  /\ (eGrabbed s <> [] -> eGrabbed s <> qualified s id ->
      a = MouseAction.NONE /\ s' = s).
Proof.
  intros _ Hc. split.
  - intros Ha.
    destruct (checkMouse_answer _ _ _ _ _ Hc Ha)
      as [[Hq _]|(Hgrab & Hg & Hp & Hr & Hm & _)]; [by left|by right].
  - intros Hne Hother.
    unfold checkMouse, SDL_assert in Hc.
    apply empty_false in Hne.
    rewrite Hne, (isSameGroupId_other _ _ _ Hother) in Hc.
    destruct (inFrame s); by simplify_eq/=.
Qed.


(** C3.  Nothing grabbed, the left button pressed, the pointer inside
    [rect] and no grab yet in the frame: the call answers [GRAB]; after it
    the grabbed id and the active id are the prefix, the separator and
    [id], the two group flags are set and so is the flag of the frame. *)
Theorem checkMouse_first_grab id r s :
  inFrame s = true -> eGrabbed s = [] -> mLeftPressed s = true ->
  SDL_PointInRect (mPos s) r = true -> mGrabbing s = false ->
  exists s',
    checkMouse id r s = Some (MouseAction.GRAB, s')
    /\ eGrabbed s' = group s ++ [groupNameSeparator] ++ id
    /\ eActive s' = group s ++ [groupNameSeparator] ++ id
    /\ gGrabbed s' = true /\ gActive s' = true /\ mGrabbing s' = true.
Proof.
  intros Hin Hg Hp Hr Hm. eexists. split.
  - by apply checkMouse_grab.
  - simpl. unfold qualified. by rewrite <- app_assoc.
Qed.

(** C4.  A call for the grabbed element with the button up answers
    [ACTION] when the pointer is inside [rect] and [CANCEL] otherwise; it
    sets the releasing flag (and the group flag) and leaves the grabbed id
    as it is.  [endFrame] clears the grabbed id exactly when the releasing
    flag is set, and no other call changes a grabbed id. *)
Theorem release_clears_at_endFrame id r s :
  inFrame s = true -> eGrabbed s = qualified s id -> mLeftPressed s = false ->
  (exists s',
     checkMouse id r s
     = Some (if SDL_PointInRect (mPos s) r
             then MouseAction.ACTION else MouseAction.CANCEL, s')
     /\ s' = set_mReleasing true (set_gGrabbed true s)
     /\ eGrabbed s' = eGrabbed s /\ mReleasing s' = true)
  /\ (forall t, inFrame t = true ->
        exists t', endFrame t = Some t'
                   /\ eGrabbed t' = (if mReleasing t then [] else eGrabbed t)
                   /\ mReleasing t' = false)
  /\ (forall o t log t',
        o <> OpEndFrame -> eGrabbed t <> [] -> step o t = Some (log, t') ->
        eGrabbed t' = eGrabbed t).
Proof.
  intros Hin Hg Hp. split; [|split].
  - eexists. split; [by apply checkMouse_release|done].
  - intros t Ht. unfold endFrame, SDL_assert. rewrite Ht. simpl.
    eexists. split; [reflexivity|]. simpl.
    by destruct (mReleasing t) eqn:Hrel.
  - intros o t log t'. apply step_keeps_grabbed.
Qed.

(** C5, as the code has it.  Nothing grabbed and the button up: the call
    answers [NONE] and changes nothing, the active id included.  The
    active id is cleared by a call made with the button down that does not
    grab, when it is the fully qualified form of [id]. *)
Theorem checkMouse_idle_keeps_active id r s :
  inFrame s = true -> eGrabbed s = [] ->
  (mLeftPressed s = false -> checkMouse id r s = Some (MouseAction.NONE, s))
  /\ (mLeftPressed s = true ->
      SDL_PointInRect (mPos s) r && negb (mGrabbing s) = false ->
      eActive s = qualified s id ->
      exists s', checkMouse id r s = Some (MouseAction.NONE, s')
                 /\ eActive s' = []).
Proof.
  intros Hin Hg. split.
  - intros Hp. by apply checkMouse_idle.
  - intros Hp Hmiss Ha. eexists. split; [by apply checkMouse_press_miss|].
    rewrite Ha at 1. by rewrite isSameGroupId_qualified.
Qed.

End MouseClaims.

Section EventClaims.

Implicit Types (s : State).

(** C6, as the code has it.  A motion event leaves the stored pointer
    where it is exactly when nothing is grabbed and the left button is
    pressed; in every other case, a grabbed element with the button held
    included, the pointer moves to the position of the event. *)
Theorem motion_frozen_until_grab (x y : Z) s :
  mPos (event (SDL_MOUSEMOTION x y) s)
  = if empty (eGrabbed s) && mLeftPressed s then mPos s
    else {| px := x; py := y |}.
Proof.
  simpl. by destruct (empty (eGrabbed s) && mLeftPressed s).
Qed.

(** C10.  A text input event fed while no element is active changes
    nothing: the buffer, the changed flag and the action kind keep their
    values. *)
Theorem text_input_dropped_without_active (text : list ascii) s :
  eActive s = [] ->
  event (SDL_TEXTINPUT text) s = s
  /\ tBuffer (event (SDL_TEXTINPUT text) s) = tBuffer s
  /\ tChanged (event (SDL_TEXTINPUT text) s) = tChanged s
  /\ tAction (event (SDL_TEXTINPUT text) s) = tAction s.
Proof.
  intros Ha. assert (event (SDL_TEXTINPUT text) s = s) as ->; [|done].
  unfold event. by rewrite Ha.
Qed.

End EventClaims.

Section GroupClaims.

Context `{ClipOps}.

Implicit Types (s : State) (id : str) (r : SDL_Rect).

(** C7, evaluated on the code.  With ["panel/list/item2"] grabbed and no
    group open, the grabbed flag of the group is set after entering
    ["panel"], is cleared by entering ["list"], is set again after leaving
    ["list"] and is cleared after leaving ["panel"]. *)
Theorem nested_group_flag_trace r s :
  group s = [] -> eGrabbed s = lit "panel/list/item2" ->
  exists s3 s4,
    endGroup (lit "list") r
      (beginGroup (lit "list") r (beginGroup (lit "panel") r s)) = Some s3
    /\ endGroup (lit "panel") r s3 = Some s4
    /\ gGrabbed (beginGroup (lit "panel") r s) = true
    /\ gGrabbed (beginGroup (lit "list") r (beginGroup (lit "panel") r s))
       = false
    /\ gGrabbed s3 = true
    /\ gGrabbed s4 = false.
Proof.
  intros Hg He.
  pose proof (beginGroup_group (lit "panel") r s) as G1.
  destruct (beginGroup_frame (lit "panel") r s) as (_ & E1 & _).
  pose proof (beginGroup_gGrabbed (lit "panel") r s) as F1.
  rewrite Hg in G1, F1. rewrite He in E1, F1.
  set (s1 := beginGroup (lit "panel") r s) in *. clearbody s1.
  change (group s1 = lit "panel") in G1.
  change (gGrabbed s1 = true) in F1.
  pose proof (beginGroup_group (lit "list") r s1) as G2.
  destruct (beginGroup_frame (lit "list") r s1) as (_ & E2 & _).
  pose proof (beginGroup_gGrabbed (lit "list") r s1) as F2.
  rewrite G1 in G2, F2. rewrite E1 in E2, F2. rewrite F1 in F2.
  set (s2 := beginGroup (lit "list") r s1) in *. clearbody s2.
  change (group s2 = lit "panel/list") in G2.
  change (gGrabbed s2 = false) in F2.
  destruct (endGroup_leaves (lit "panel") (lit "list") r s2 G2)
    as (s3 & Hend3 & G3).
  destruct (endGroup_frame _ _ _ _ Hend3) as (_ & E3 & _).
  pose proof (endGroup_gGrabbed _ _ _ _ Hend3) as F3.
  rewrite G2, E2, F2 in F3. rewrite E2 in E3.
  change (gGrabbed s3 = true) in F3.
  destruct (endGroup_leaves [] (lit "panel") r s3 G3) as (s4 & Hend4 & G4).
  pose proof (endGroup_gGrabbed _ _ _ _ Hend4) as F4.
  rewrite G3 in F4. change (gGrabbed s4 = false) in F4.
  by exists s3, s4.
Qed.

(** C8.  A group opened and closed around properly nested calls of a
    frame: the calls run to the end and the prefix after [endGroup] is the
    prefix from before [beginGroup]. *)
Theorem group_prefix_round_trip id r r' (body : list Op) s :
  nested body -> inFrame s = true ->
  exists log s',
    run (OpBeginGroup id r :: body ++ [OpEndGroup id r']) s = Some (log, s')
    /\ group s' = group s.
Proof.
  intros Hbody Hin.
  destruct (run_nested _ (nested_group id r r' _ _ Hbody nested_nil) s Hin)
    as (log & s' & Hrun & Hg & _).
  by exists log, s'.
Qed.

End GroupClaims.

Section ClipClaims.

Import DisplayList.

(** C9, evaluated on the code.  [clip(rect, pos)] keeps the commands
    before [pos] and removes every command from [pos] on, also those
    whose rectangle intersects [rect]: the call of [SDL_IntersectRect]
    with a NULL result answers false for every command.  On five
    commands of which the third overlaps the rectangle, culling from
    position 1 leaves the first command only. *)
Theorem clip_removes_all_from_mark (r : SDL_Rect) (pos : nat) (d : t) :
  items (clip SDL_IntersectRect_nullptr r pos d) = take pos (items d)
  /\ (items fiveBoxes !! 2%nat = Some (boxAt 12 12)
      /\ overlaps btnRect (rect (boxAt 12 12)) = true
      /\ items (clip SDL_IntersectRect_nullptr btnRect 1 fiveBoxes)
         = [boxAt 100 100]).
Proof.
  split.
  - rewrite DisplayListFacts.clip_items.
    assert (forall l : list Item,
              List.filter
                (fun item => SDL_IntersectRect_nullptr r (rect item)) l = [])
      as -> by (induction l; done).
    apply app_nil_r.
  - repeat split; vm_compute; reflexivity.
Qed.

End ClipClaims.

(** * The claims on concrete states *)

Lemma checkMouse_only_for_grabbed_witness :
  (MouseAction.GRAB <> MouseAction.NONE ->
   qualified pressedState btn = eGrabbed pressedState
   \/ (MouseAction.GRAB = MouseAction.GRAB /\ eGrabbed pressedState = []
       /\ mLeftPressed pressedState = true
       /\ SDL_PointInRect (mPos pressedState) btnRect = true
       /\ mGrabbing pressedState = false))
  /\ (eGrabbed pressedState <> [] ->
      eGrabbed pressedState <> qualified pressedState btn ->
      MouseAction.GRAB = MouseAction.NONE /\ grabbedState = pressedState).
Proof.
  apply (@checkMouse_only_for_grabbed noClip
           [OpEvent (SDL_MOUSEBUTTONDOWN 15 15 SDL_BUTTON_LEFT); OpBeginFrame 0]
           [] initial pressedState grabbedState btn btnRect MouseAction.GRAB);
    vm_compute; reflexivity.
Defined.


Lemma checkMouse_first_grab_witness :
  exists s',
    checkMouse btn btnRect pressedState = Some (MouseAction.GRAB, s')
    /\ eGrabbed s' = group pressedState ++ [groupNameSeparator] ++ btn
    /\ eActive s' = group pressedState ++ [groupNameSeparator] ++ btn
    /\ gGrabbed s' = true /\ gActive s' = true /\ mGrabbing s' = true.
Proof.
  apply (checkMouse_first_grab btn btnRect pressedState); reflexivity.
Defined.

Lemma release_clears_at_endFrame_witness :
  exists s',
    checkMouse btn btnRect releasedState = Some (MouseAction.CANCEL, s')
    /\ eGrabbed s' = lit "/btn" /\ mReleasing s' = true
    /\ (eGrabbed <$> endFrame s') = Some [].
Proof.
  destruct (@release_clears_at_endFrame noClip btn btnRect releasedState)
    as ((s' & Hcall & Hs' & Hkeep & Hrel) & Hend & _); [reflexivity..|].
  exists s'. split; [exact Hcall|]. split; [exact Hkeep|]. split; [exact Hrel|].
  rewrite Hs'. reflexivity.
Defined.

Lemma checkMouse_idle_keeps_active_witness :
  checkMouse btn btnRect idleActiveState
  = Some (MouseAction.NONE, idleActiveState)
  /\ eActive idleActiveState = lit "/btn".
Proof.
  split; [|reflexivity].
  apply (checkMouse_idle_keeps_active btn btnRect idleActiveState);
    reflexivity.
Defined.

(** C5 as stated fails: ["/btn"] is active, nothing is grabbed and the
    button is up; the call for ["btn"] leaves ["/btn"] active. *)
Lemma checkMouse_idle_active_not_cleared :
  eGrabbed idleActiveState = []
  /\ mLeftPressed idleActiveState = false
  /\ eActive idleActiveState = qualified idleActiveState btn
  /\ exists s',
       checkMouse btn btnRect idleActiveState = Some (MouseAction.NONE, s')
       /\ eActive s' <> [].
Proof.
  repeat split. exists idleActiveState. split; [reflexivity|discriminate].
Qed.

(** C6 as stated fails: with ["/btn"] grabbed and the button held, a
    motion event moves the stored pointer; with nothing grabbed and the
    button held, it does not. *)
Lemma motion_moves_while_grabbed :
  (eGrabbed heldState <> [] /\ mLeftPressed heldState = true
   /\ mPos (event (SDL_MOUSEMOTION 5 5) heldState) <> mPos heldState)
  /\ (eGrabbed pressedState = [] /\ mLeftPressed pressedState = true
      /\ mPos (event (SDL_MOUSEMOTION 5 5) pressedState)
         <> {| px := 5; py := 5 |}).
Proof. repeat split; discriminate. Qed.

Lemma nested_group_flag_trace_witness :
  exists s3 s4,
    @endGroup noClip (lit "list") btnRect
      (@beginGroup noClip (lit "list") btnRect
         (@beginGroup noClip (lit "panel") btnRect panelState)) = Some s3
    /\ @endGroup noClip (lit "panel") btnRect s3 = Some s4
    /\ gGrabbed (@beginGroup noClip (lit "panel") btnRect panelState) = true
    /\ gGrabbed (@beginGroup noClip (lit "list") btnRect
                   (@beginGroup noClip (lit "panel") btnRect panelState))
       = false
    /\ gGrabbed s3 = true
    /\ gGrabbed s4 = false.
Proof.
  apply (@nested_group_flag_trace noClip btnRect panelState); reflexivity.
Defined.

Lemma group_prefix_round_trip_witness :
  exists log s',
    @run noClip
      (OpBeginGroup (lit "panel") btnRect
         :: [OpCheckMouse btn btnRect] ++ [OpEndGroup (lit "panel") btnRect])
      pressedState = Some (log, s')
    /\ group s' = group pressedState.
Proof.
  apply (@group_prefix_round_trip noClip (lit "panel") btnRect btnRect
           [OpCheckMouse btn btnRect] pressedState).
  - apply nested_check, nested_nil.
  - reflexivity.
Defined.

Lemma text_input_dropped_without_active_witness :
  event (SDL_TEXTINPUT (lit "a")) initial = initial
  /\ tBuffer (event (SDL_TEXTINPUT (lit "a")) initial) = tBuffer initial
  /\ tChanged (event (SDL_TEXTINPUT (lit "a")) initial) = tChanged initial
  /\ tAction (event (SDL_TEXTINPUT (lit "a")) initial) = tAction initial.
Proof.
  apply (text_input_dropped_without_active (lit "a") initial). reflexivity.
Defined.

(** * The scenarios of the specification, run on the code *)

(** Press inside the rectangle, drag out, release outside, query again. *)
Example click_drag_cancel :
  fst <$> @run noClip
    [OpEvent (SDL_MOUSEBUTTONDOWN 15 15 SDL_BUTTON_LEFT);
     OpBeginFrame 0; OpCheckMouse btn btnRect; OpEndFrame;
     OpEvent (SDL_MOUSEMOTION 5 5);
     OpBeginFrame 1; OpCheckMouse btn btnRect; OpEndFrame;
     OpEvent (SDL_MOUSEBUTTONUP 5 5 SDL_BUTTON_LEFT);
     OpBeginFrame 2; OpCheckMouse btn btnRect; OpEndFrame;
     OpBeginFrame 3; OpCheckMouse btn btnRect; OpEndFrame]
    initial
  = Some [(lit "/btn", MouseAction.GRAB); (lit "/btn", MouseAction.DRAG);
          (lit "/btn", MouseAction.CANCEL); (lit "/btn", MouseAction.NONE)].
Proof. vm_compute. reflexivity. Qed.

(** Two buttons under the pointer in the frame of the press. *)
Example two_buttons_one_grab :
  fst <$> @run noClip
    [OpCheckMouse (lit "ok") btnRect; OpCheckMouse btn btnRect;
     OpCheckMouse (lit "ok") btnRect]
    pressedState
  = Some [(lit "/ok", MouseAction.GRAB); (lit "/btn", MouseAction.NONE);
          (lit "/ok", MouseAction.GRAB)].
Proof. vm_compute. reflexivity. Qed.

(** A two-byte character becomes one placeholder in the text buffer. *)
Example text_input_placeholder :
  take 3 (tBuffer (event (SDL_TEXTINPUT
                            [ascii_of_nat 97; ascii_of_nat 195;
                             ascii_of_nat 169; Ascii.zero])
                         idleActiveState))
  = [ascii_of_nat 97; ascii_of_nat 15; Ascii.zero].
Proof. vm_compute. reflexivity. Qed.

(** Culling from position 1, as the program does it and as its
    description has it: the first command stays although it is outside
    the rectangle; the program also removes the two overlapping ones. *)
Example clip_from_one :
  DisplayList.items (DisplayList.clip SDL_IntersectRect_nullptr btnRect 1 fiveBoxes)
  = [boxAt 100 100]
  /\ DisplayList.items (DisplayList.clip overlaps btnRect 1 fiveBoxes)
     = [boxAt 100 100; boxAt 12 12; boxAt 8 8].
Proof. split; vm_compute; reflexivity. Qed.

(** After a click at the root the next frame starts with the grabbed flag
    of the group still set, although nothing is grabbed any more. *)
Example gGrabbed_left_over_at_frame_start :
  (fun s => (inFrame s, gGrabbed s, eGrabbed s, group s)) <$>
    (snd <$> @run noClip
       [OpEvent (SDL_MOUSEBUTTONDOWN 15 15 SDL_BUTTON_LEFT);
        OpBeginFrame 0; OpCheckMouse btn btnRect; OpEndFrame;
        OpEvent (SDL_MOUSEBUTTONUP 15 15 SDL_BUTTON_LEFT);
        OpBeginFrame 1; OpCheckMouse btn btnRect; OpEndFrame;
        OpBeginFrame 2]
       initial)
  = Some (true, true, [], []).
Proof. vm_compute. reflexivity. Qed.

(** * More properties of the code *)

(** ** The display list *)

Section DisplayListMore.

Import DisplayList.

Variable SDL_IntersectRect : SDL_Rect -> SDL_Rect -> bool.

Lemma clip_beyond_end (r : SDL_Rect) (pos : nat) (d : t) :
  (size d <= pos)%nat -> clip SDL_IntersectRect r pos d = d.
Proof.
  intros Hle. unfold clip. apply Nat.leb_le in Hle. by rewrite Hle.
Qed.

Lemma items_inj (d1 d2 : t) : items d1 = items d2 -> d1 = d2.
Proof. destruct d1, d2. simpl. by intros ->. Qed.

(** X1.  No command with a fully transparent colour is ever in the
    list: [clear], [insert] and [clip] keep the list free of them, and
    [insert] of such a colour changes nothing. *)
Theorem display_list_stays_visible (r : SDL_Rect) (c : SDL_Color)
    (ch : ascii) (pos : nat) (d : t) :
  visible (clear d)
  /\ (visible d -> visible (insert r c ch d))
  /\ (visible d -> visible (clip SDL_IntersectRect r pos d))
  /\ (ca c <= 0 -> insert r c ch d = d).
Proof.
  unfold visible. split; [by constructor|]. split; [|split].
  - intros Hd. unfold insert. destruct (0 <? ca c) eqn:Ha; [|done].
    simpl. apply Forall_app. split; [done|].
    constructor; [|constructor]. simpl. by apply Z.ltb_lt.
  - intros Hd. rewrite DisplayListFacts.clip_items.
    apply Forall_app. split; [by apply Forall_take|].
    apply List.Forall_forall. intros it [Hin _]%List.filter_In.
    apply list_elem_of_In in Hin.
    pose proof (Forall_drop _ pos _ Hd) as Hd'.
    rewrite Forall_forall in Hd'. by apply Hd'.
  - intros Ha. unfold insert.
    by destruct (Z.ltb_spec 0 (ca c)); [lia|].
Qed.

(** X2.  Culling twice with the same rectangle from the same position
    is culling once. *)
Theorem clip_idempotent (r : SDL_Rect) (pos : nat) (d : t) :
  clip SDL_IntersectRect r pos (clip SDL_IntersectRect r pos d)
  = clip SDL_IntersectRect r pos d.
Proof.
  destruct (decide (size d <= pos)%nat) as [Hle|Hgt].
  - rewrite (clip_beyond_end r pos d Hle). by apply clip_beyond_end.
  - apply items_inj. rewrite (DisplayListFacts.clip_items _ r pos (clip _ _ _ _)).
    rewrite DisplayListFacts.clip_items. unfold size in Hgt.
    rewrite take_app_length', drop_app_length'
      by (rewrite length_take_le; lia).
    f_equal. induction (drop pos (items d)) as [|it l IH]; [done|].
    simpl. destruct (SDL_IntersectRect r (rect it)) eqn:Hit; simpl;
      [by rewrite Hit, IH|done].
Qed.

(** X3.  Culling never grows the list and never cuts into the part
    before [pos]; from a position at or after the end it does nothing. *)
Theorem clip_size_bounds (r : SDL_Rect) (pos : nat) (d : t) :
  (size (clip SDL_IntersectRect r pos d) <= size d)%nat
  /\ ((pos <= size d)%nat -> (pos <= size (clip SDL_IntersectRect r pos d))%nat)
  /\ ((size d <= pos)%nat -> clip SDL_IntersectRect r pos d = d).
Proof.
  split; [|split].
  - unfold size. rewrite DisplayListFacts.clip_items, length_app.
    pose proof (List.filter_length_le
      (fun item => SDL_IntersectRect r (rect item)) (drop pos (items d))) as Hf.
    rewrite length_drop in Hf. rewrite length_take. lia.
  - intros Hle. unfold size in *.
    rewrite DisplayListFacts.clip_items, length_app, length_take. lia.
  - apply clip_beyond_end.
Qed.

End DisplayListMore.

Section RenderMore.

Import DisplayList.

Lemma render_app (l1 l2 : list Item) :
  render {| items := l1 ++ l2 |}
  = render {| items := l2 |} ++ render {| items := l1 |}.
Proof. unfold render. simpl. by rewrite reverse_app, List.flat_map_app. Qed.

(** X4.  [render] paints in the reverse of the order of insertion: the
    calls for a list are the calls for its later part followed by the
    calls for its earlier part; so a command that was just inserted is
    painted first, and nothing is painted after [clear]. *)
Theorem render_reverse_order (l1 l2 : list Item) (r : SDL_Rect)
    (c : SDL_Color) (ch : ascii) (d : t) :
  render {| items := l1 ++ l2 |}
  = render {| items := l2 |} ++ render {| items := l1 |}
  /\ (0 < ca c ->
      render (insert r c ch d)
      = renderItem {| rect := r; color := c; content := ch |} ++ render d)
  /\ render (clear d) = [].
Proof.
  split; [apply render_app|]. split; [|done].
  intros Ha. unfold insert. apply Z.ltb_lt in Ha. rewrite Ha.
  rewrite render_app. destruct d as [l]. simpl. f_equal.
  unfold render. simpl. by rewrite app_nil_r.
Qed.

End RenderMore.

(** ** Ids and text *)

Section IdsAndTextMore.

Implicit Types (s : State) (id q : str) (ev : SDL_Event).

(** An event leaves the group prefix, the flags of the group and the two
    ids alone. *)
Lemma event_keeps_focus ev s :
  group (event ev s) = group s
  /\ eGrabbed (event ev s) = eGrabbed s
  /\ eActive (event ev s) = eActive s
  /\ gGrabbed (event ev s) = gGrabbed s
  /\ gActive (event ev s) = gActive s
  /\ mHovering (event ev s) = mHovering s
  /\ mGrabbing (event ev s) = mGrabbing s
  /\ mReleasing (event ev s) = mReleasing s.
Proof. destruct ev; simpl; repeat case_match; done. Qed.

Lemma checkText_cases s id :
  checkText s id
  = if tChanged s && bool_decide (eActive s = qualified s id)
    then tAction s else TextAction.NONE.
Proof.
  unfold checkText. destruct (tChanged s); simpl; [|done].
  case_bool_decide as Ha.
  - by rewrite Ha, isSameGroupId_qualified.
  - by rewrite isSameGroupId_other.
Qed.

(** X5.  [isSameGroupId(q, id)] holds exactly when [q] is the current
    prefix, the separator and [id]; so under one prefix a qualified id
    matches at most one id. *)
Theorem isSameGroupId_iff s q :
  (forall id,
     isSameGroupId s q id = true <-> q = group s ++ [groupNameSeparator] ++ id)
  /\ (forall id1 id2,
        isSameGroupId s q id1 = true -> isSameGroupId s q id2 = true ->
        id1 = id2).
Proof.
  split.
  - intros id. rewrite isSameGroupId_spec. unfold qualified.
    by rewrite <- app_assoc.
  - intros id1 id2 H1%isSameGroupId_spec H2%isSameGroupId_spec.
    rewrite H1 in H2. unfold qualified in H2. by apply app_inv_head in H2.
Qed.

(** X6.  A text action reaches the active element only, and only until
    the frame ends.  With [group + '/' + id] active: after a backspace
    key [checkText(id)] answers [BACKSPACE] and the buffer is as before;
    after a text input it answers [INPUT]; for any other id the answer is
    [NONE] after any event; and after [endFrame] the answer is [NONE]. *)
Theorem text_action_lifetime s id :
  eActive s = qualified s id ->
  (checkText (event (SDL_KEYDOWN SDLK_BACKSPACE) s) id = TextAction.BACKSPACE
   /\ tBuffer (event (SDL_KEYDOWN SDLK_BACKSPACE) s) = tBuffer s)
  /\ (forall text,
        checkText (event (SDL_TEXTINPUT text) s) id = TextAction.INPUT)
  /\ (forall ev id', id' <> id -> checkText (event ev s) id' = TextAction.NONE)
  /\ (forall ev s', endFrame (event ev s) = Some s' ->
        checkText s' id = TextAction.NONE).
Proof.
  intros Ha. split; [|split; [|split]].
  - rewrite checkText_cases. simpl. rewrite Ha.
    by rewrite bool_decide_eq_true_2.
  - intros text. rewrite checkText_cases. simpl.
    assert (empty (eActive s) = false) as ->.
    { apply empty_false. rewrite Ha. apply qualified_nonempty. }
    simpl. rewrite Ha. by rewrite bool_decide_eq_true_2.
  - intros ev id' Hne. rewrite checkText_cases.
    destruct (event_keeps_focus ev s) as (Hg & _ & He & _).
    rewrite He, Ha. unfold qualified. rewrite Hg.
    rewrite bool_decide_eq_false_2, andb_false_r; [done|].
    by intros ?%app_inv_head.
  - intros ev s'. unfold endFrame, SDL_assert.
    destruct (inFrame (event ev s)); [|done]. intros Hs'. simplify_eq.
    unfold checkText. simpl. by destruct (mReleasing (event ev s)).
Qed.

End IdsAndTextMore.

(** ** The text buffer *)

Section TextBufferMore.

Implicit Types (s : State) (text buf pre post rest : list ascii).

Lemma textLoop_S (n i j : nat) text buf :
  textLoop (S n) i j text buf
  = let buf := <[j := char_at text i]> buf in
    if char_eqb (char_at buf j) Ascii.zero then buf
    else if char_land (char_at buf j) 192 =? 128 then
      textLoop n (S i) j text buf
    else
      let buf :=
        if negb (char_land (char_at buf j) 128 =? 0)
        then <[j := ascii_of_nat 15]> buf else buf in
      textLoop n (S i) (S j) text buf.
Proof. reflexivity. Qed.

Lemma char_at_insert buf (j : nat) (c : ascii) :
  (j < length buf)%nat -> char_at (<[j:=c]> buf) j = c.
Proof. intros Hj. unfold char_at. by rewrite list_lookup_insert_eq. Qed.

Lemma drop_head text (i : nat) (c : ascii) rest :
  drop i text = c :: rest -> char_at text i = c /\ drop (S i) text = rest.
Proof.
  intros Hd.
  assert (text !! i = Some c) as Hc.
  { rewrite <- (Nat.add_0_r i), <- lookup_drop, Hd. done. }
  unfold char_at. rewrite Hc. split; [done|].
  rewrite (drop_S _ _ _ Hc) in Hd. by simplify_eq.
Qed.

Lemma char_eqb_refl (c : ascii) : char_eqb c c = true.
Proof. by apply char_eqb_true. Qed.

Lemma normalize_length pre : (length (normalize pre) <= length pre)%nat.
Proof.
  induction pre as [|c pre IH]; simpl; [done|].
  repeat case_match; simpl; lia.
Qed.

(** What [normalize] returns has no zero and no byte above 127. *)
Lemma normalize_plain pre :
  Forall (fun c => c <> Ascii.zero /\ char_land c 128 = 0) (normalize pre).
Proof.
  induction pre as [|c pre IH]; simpl; [constructor|].
  destruct (char_eqb c Ascii.zero) eqn:Hz; [constructor|].
  destruct (char_land c 192 =? 128); [done|].
  constructor; [|done].
  destruct (char_land c 128 =? 0) eqn:Hh; simpl.
  - split; [|by apply Z.eqb_eq].
    intros ->. by rewrite char_eqb_refl in Hz.
  - done.
Qed.

Lemma c_str_terminated pre rest :
  Forall (fun c => c <> Ascii.zero) pre ->
  c_str (pre ++ Ascii.zero :: rest) = pre.
Proof.
  induction 1 as [|c pre Hc _ IH]; cbn [c_str app].
  - by rewrite char_eqb_refl.
  - destruct (char_eqb c Ascii.zero) eqn:Hz; [by apply char_eqb_true in Hz|].
    by rewrite IH.
Qed.

(** The loop, from any position: the buffer gets the normalized rest of
    the input at [j], then a zero; the rest of the buffer is as before. *)
Lemma textLoop_normalize rest : forall (n i j : nat) text buf post,
  drop i text = rest ++ Ascii.zero :: post ->
  Forall (fun c => c <> Ascii.zero) rest ->
  (length rest < n)%nat ->
  (j + length (normalize rest) < length buf)%nat ->
  textLoop n i j text buf
  = take j buf ++ normalize rest
    ++ Ascii.zero :: drop (S (j + length (normalize rest))) buf.
Proof.
  induction rest as [|c rest IH]; intros n i j text buf post Hd Hnz Hn Hj;
    (destruct n as [|n]; [simpl in Hn; lia|]); rewrite textLoop_S; simpl in *.
  - destruct (drop_head _ _ _ _ Hd) as [Hc _].
    rewrite Hc, char_at_insert by lia.
    rewrite char_eqb_refl.
    rewrite Nat.add_0_r. apply insert_take_drop. lia.
  - destruct (drop_head _ _ _ _ Hd) as [Hc Hd'].
    apply Forall_cons in Hnz as [Hcz Hnz].
    assert (char_eqb c Ascii.zero = false) as Hz.
    { apply not_true_iff_false. by intros ?%char_eqb_true. }
    rewrite Hz in Hj |- *.
    assert (j < length buf)%nat as Hjb by (repeat case_match; simpl in Hj; lia).
    rewrite Hc, char_at_insert, Hz by done.
    destruct (char_land c 192 =? 128) eqn:Hcont.
    + rewrite (IH n (S i) j text _ post); try done; try lia.
      * rewrite take_insert_ge, drop_insert_lt by lia. done.
      * by rewrite length_insert.
    + simpl in Hj.
      assert ((if negb (char_land c 128 =? 0)
               then <[j:=ascii_of_nat 15]> (<[j:=c]> buf) else <[j:=c]> buf)
              = <[j:=if negb (char_land c 128 =? 0) then ascii_of_nat 15 else c]>
                  buf) as ->.
      { destruct (negb (char_land c 128 =? 0));
          [apply list_insert_insert_eq|done]. }
      rewrite (IH n (S i) (S j) text _ post); try done; try lia.
      * cbn [length].
        rewrite (take_S_r _ _ _ (list_lookup_insert_eq _ _ _ Hjb)).
        rewrite take_insert_ge, drop_insert_lt by lia.
        replace (S (j + S (length (normalize rest))))
          with (S (S j + length (normalize rest))) by lia.
        by rewrite <- app_assoc.
      * rewrite length_insert. lia.
Qed.

(** X7.  A text input event fed while an element is active stores the
    normalized input: for an input that ends with a zero within its 32
    bytes, [getText] is afterwards the input up to the zero without the
    continuation bytes and with 15 for every other byte above 127; it
    has no byte above 127; the changed flag is set and the action is
    [INPUT]. *)
Theorem text_input_normalized s pre post :
  eActive s <> [] ->
  Forall (fun c => c <> Ascii.zero) pre ->
  (length pre < SDL_TEXTINPUTEVENT_TEXT_SIZE)%nat ->
  (SDL_TEXTINPUTEVENT_TEXT_SIZE <= length (tBuffer s))%nat ->
  getText (event (SDL_TEXTINPUT (pre ++ Ascii.zero :: post)) s) = normalize pre
  /\ Forall (fun c => char_land c 128 = 0)
            (getText (event (SDL_TEXTINPUT (pre ++ Ascii.zero :: post)) s))
  /\ tChanged (event (SDL_TEXTINPUT (pre ++ Ascii.zero :: post)) s) = true
  /\ tAction (event (SDL_TEXTINPUT (pre ++ Ascii.zero :: post)) s)
     = TextAction.INPUT.
Proof.
  intros Ha Hnz Hlen Hbuf. apply empty_false in Ha.
  assert (getText (event (SDL_TEXTINPUT (pre ++ Ascii.zero :: post)) s)
          = normalize pre) as Hget.
  { unfold getText, event. rewrite Ha. simpl.
    pose proof (normalize_length pre) as Hnl.
    rewrite (textLoop_normalize pre _ 0 0 _ _ post); try done; try lia.
    simpl. apply c_str_terminated.
    eapply Forall_impl; [apply normalize_plain|]. by intros c [Hc _]. }
  split; [done|]. split.
  - rewrite Hget. eapply Forall_impl; [apply normalize_plain|].
    by intros c [_ Hc].
  - unfold event. by rewrite Ha.
Qed.

End TextBufferMore.

(** ** Frames and the mouse *)

Section FramesMore.

Context `{ClipOps}.

Implicit Types (s : State) (id : str) (r : SDL_Rect) (ops : list Op).

(** A property that every call keeps holds at the end of every run. *)
Lemma run_invariant (P : State -> Prop) :
  (forall o s log s', P s -> step o s = Some (log, s') -> P s') ->
  forall ops s log s', P s -> run ops s = Some (log, s') -> P s'.
Proof.
  intros Hstep. induction ops as [|o ops IH]; intros s log s' HP Hrun;
    simpl in Hrun.
  - by simplify_eq.
  - destruct (step o s) as [[log1 s1]|] eqn:Hs; simpl in Hrun; [|done].
    destruct (run ops s1) as [[log2 s2]|] eqn:Hr; simplify_eq/=.
    eapply IH; [|done]. by eapply Hstep.
Qed.

(** The fields a step can change, call by call. *)
Ltac step_fields Hs :=
  unfold step, beginFrame, endFrame, endGroup, checkMouse, SDL_assert in Hs;
  simpl in Hs; repeat case_match; simplify_eq/=.

(** X8.  The flags of a frame do not leak out of it: after any run of
    calls that starts outside a frame with the grabbing and releasing
    flags clear, both flags are clear whenever no frame is open. *)
Theorem frame_flags_clear_between_frames ops s0 log s :
  (inFrame s0 = false -> mGrabbing s0 = false /\ mReleasing s0 = false) ->
  run ops s0 = Some (log, s) ->
  inFrame s = false -> mGrabbing s = false /\ mReleasing s = false.
Proof.
  intros H0 Hrun.
  apply (run_invariant
           (fun s => inFrame s = false ->
                     mGrabbing s = false /\ mReleasing s = false))
    with ops s0 log; [|done..].
  clear. intros o s log s' HP Hs.
  destruct o as [ev|ticks| |id r|id r|id r].
  - simpl in Hs. simplify_eq.
    destruct (event_frame ev s) as (-> & _).
    destruct (event_keeps_focus ev s) as (_ & _ & _ & _ & _ & _ & -> & ->).
    done.
  - step_fields Hs; done.
  - step_fields Hs; done.
  - simpl in Hs. destruct (checkMouse id r s) as [[a s1]|] eqn:Hc;
      simplify_eq/=.
    pose proof (checkMouse_needs_frame _ _ _ _ _ Hc) as Hin.
    destruct (checkMouse_group _ _ _ _ _ Hc) as [_ Hf]. congruence.
  - simpl in Hs. simplify_eq.
    destruct (beginGroup_frame id r s) as (-> & _).
    intros Hin. destruct (HP Hin) as [Hg Hr].
    unfold beginGroup. simpl. repeat case_match; done.
  - simpl in Hs. destruct (endGroup id r s) as [s1|] eqn:He; simplify_eq/=.
    destruct (endGroup_frame _ _ _ _ He) as (-> & _).
    intros Hin. destruct (HP Hin) as [Hg Hr].
    unfold endGroup, SDL_assert in He.
    repeat case_match; simplify_eq/=; done.
Qed.

(** X9.  The grabbed element is the active one: after any run of calls
    that starts with nothing grabbed, or with the active id equal to the
    grabbed id, a grabbed id is also the active id; so while an element
    is grabbed the state wants the mouse and the keyboard. *)
Theorem grabbed_is_active ops s0 log s :
  (eGrabbed s0 = [] \/ eActive s0 = eGrabbed s0) ->
  run ops s0 = Some (log, s) ->
  (eGrabbed s = [] \/ eActive s = eGrabbed s)
  /\ (eGrabbed s <> [] -> wantsMouse s = true /\ wantsKeyboard s = true).
Proof.
  intros H0 Hrun.
  assert (eGrabbed s = [] \/ eActive s = eGrabbed s) as Hinv.
  { apply (run_invariant (fun s => eGrabbed s = [] \/ eActive s = eGrabbed s))
      with ops s0 log; [|done..].
    clear. intros o s log s' HP Hs.
    destruct o as [ev|ticks| |id r|id r|id r].
    - simpl in Hs. simplify_eq.
      by destruct (event_keeps_focus ev s) as (_ & -> & -> & _).
    - step_fields Hs; done.
    - step_fields Hs; auto.
    - simpl in Hs. destruct (checkMouse id r s) as [[a s1]|] eqn:Hc;
        simplify_eq/=.
      unfold checkMouse, SDL_assert in Hc.
      destruct (empty (eGrabbed s)) eqn:He.
      + apply empty_true in He.
        repeat case_match; simplify_eq/=; auto.
      + apply empty_false in He. destruct HP as [?|HP]; [done|].
        repeat case_match; simplify_eq/=; auto.
    - simpl in Hs. simplify_eq.
      by destruct (beginGroup_frame id r s) as (_ & -> & ->).
    - simpl in Hs. destruct (endGroup id r s) as [s1|] eqn:He; simplify_eq/=.
      by destruct (endGroup_frame _ _ _ _ He) as (_ & -> & ->). }
  split; [done|]. intros Hne.
  destruct Hinv as [?|Ha]; [done|].
  unfold wantsMouse, wantsKeyboard. rewrite Ha.
  apply empty_false in Hne. rewrite Hne. by rewrite orb_true_r.
Qed.

End FramesMore.

Section ClickMore.

Context `{ClipOps}.

Implicit Types (s : State) (id : str) (r : SDL_Rect).

Lemma run_cons o ops s log1 s1 :
  step o s = Some (log1, s1) ->
  run (o :: ops) s
  = '(log2, s2) ← run ops s1; Some (log1 ++ log2, s2).
Proof. intros Hs. simpl. by rewrite Hs. Qed.

(** X10.  A click.  Outside a frame, with nothing grabbed and the flags
    of the frame clear: the left button goes down inside [rect], a frame
    queries [id], the button goes up, and a second frame queries [id].
    The first answer is [GRAB], the second is [ACTION] if the button went
    up inside [rect] and [CANCEL] otherwise; afterwards nothing is
    grabbed and the element is still the active one ([isActive]). *)
Theorem click_cycle id r (x y x' y' b t1 t2 : Z) s0 :
  inFrame s0 = false -> eGrabbed s0 = [] ->
  mGrabbing s0 = false -> mReleasing s0 = false ->
  SDL_PointInRect {| px := x; py := y |} r = true ->
  exists s',
    run [OpEvent (SDL_MOUSEBUTTONDOWN x y SDL_BUTTON_LEFT);
         OpBeginFrame t1; OpCheckMouse id r; OpEndFrame;
         OpEvent (SDL_MOUSEBUTTONUP x' y' b);
         OpBeginFrame t2; OpCheckMouse id r; OpEndFrame] s0
    = Some ([(qualified s0 id, MouseAction.GRAB);
             (qualified s0 id,
              if SDL_PointInRect {| px := x'; py := y' |} r
              then MouseAction.ACTION else MouseAction.CANCEL)], s')
    /\ eGrabbed s' = [] /\ eActive s' = qualified s0 id
    /\ inFrame s' = false /\ isActive s' id = true.
Proof.
  intros Hin Hg Hm Hrel Hr.
  set (s1 := event (SDL_MOUSEBUTTONDOWN x y SDL_BUTTON_LEFT) s0).
  assert (exists s2, beginFrame t1 s1 = Some s2 /\ inFrame s2 = true
            /\ eGrabbed s2 = [] /\ mLeftPressed s2 = true
            /\ mPos s2 = {| px := x; py := y |} /\ mGrabbing s2 = false
            /\ mReleasing s2 = false /\ group s2 = group s0)
    as (s2 & Hs2 & Hin2 & Hg2 & Hp2 & Hpos2 & Hm2 & Hrel2 & Hgr2).
  { unfold beginFrame, SDL_assert, s1. simpl. rewrite Hin. simpl.
    eexists. split; [reflexivity|]. simpl. done. }
  pose proof (checkMouse_grab id r s2 Hin2 Hg2 Hp2) as Hc3.
  rewrite Hpos2 in Hc3. specialize (Hc3 Hr Hm2).
  set (s3 := set_mGrabbing true _) in Hc3.
  assert (exists s4, endFrame s3 = Some s4 /\ inFrame s4 = false
            /\ eGrabbed s4 = qualified s0 id /\ eActive s4 = qualified s0 id
            /\ mGrabbing s4 = false /\ mReleasing s4 = false
            /\ group s4 = group s0)
    as (s4 & Hs4 & Hin4 & Hg4 & Ha4 & Hm4 & Hrel4 & Hgr4).
  { unfold endFrame, SDL_assert, s3. simpl. rewrite Hin2, Hrel2.
    eexists. split; [reflexivity|]. simpl. unfold qualified. rewrite Hgr2.
    done. }
  set (s5 := event (SDL_MOUSEBUTTONUP x' y' b) s4).
  assert (exists s6, beginFrame t2 s5 = Some s6 /\ inFrame s6 = true
            /\ eGrabbed s6 = qualified s6 id /\ eActive s6 = qualified s0 id
            /\ mLeftPressed s6 = false
            /\ mPos s6 = {| px := x'; py := y' |}
            /\ qualified s6 id = qualified s0 id)
    as (s6 & Hs6 & Hin6 & Hg6 & Ha6 & Hp6 & Hpos6 & Hq6).
  { unfold beginFrame, SDL_assert, s5. simpl. rewrite Hin4. simpl.
    eexists. split; [reflexivity|]. simpl. unfold qualified. simpl.
    rewrite Hgr4. done. }
  pose proof (checkMouse_release id r s6 Hin6 Hg6 Hp6) as Hc7.
  rewrite Hpos6 in Hc7.
  set (s7 := set_mReleasing true _) in Hc7.
  exists (set_mReleasing false (set_eGrabbed []
            (set_mGrabbing false (set_tChanged false (set_inFrame false s7))))).
  split.
  2:{ split; [done|]. split; [by rewrite <- Ha6|]. split; [done|].
      unfold isActive. apply isSameGroupId_spec. simpl.
      rewrite Ha6, <- Hq6. done. }
  rewrite (run_cons _ _ _ [] s1) by done.
  rewrite (run_cons _ _ _ [] s2) by (simpl; by rewrite Hs2).
  rewrite (run_cons _ _ _ [(qualified s2 id, MouseAction.GRAB)] s3)
    by (simpl; by rewrite Hc3).
  rewrite (run_cons _ _ _ [] s4) by (simpl; by rewrite Hs4).
  rewrite (run_cons _ _ _ [] s5) by done.
  rewrite (run_cons _ _ _ [] s6) by (simpl; by rewrite Hs6).
  rewrite (run_cons _ _ _ [(qualified s6 id, _)] s7)
    by (simpl; by rewrite Hc7).
  rewrite (run_cons _ _ _ []
             (set_mReleasing false (set_eGrabbed []
                (set_mGrabbing false (set_tChanged false
                   (set_inFrame false s7)))))).
  2:{ simpl. unfold endFrame, SDL_assert, s7. simpl. by rewrite Hin6. }
  simpl. rewrite Hq6. unfold qualified. by rewrite Hgr2.
Qed.

(** X11.  Any button that goes up ends the grab: for the grabbed element,
    the query after a button-up event of any button answers [ACTION] when
    the event is inside [rect] and [CANCEL] otherwise.  A button other
    than the left one that goes down moves the pointer and presses
    nothing. *)
Theorem any_button_up_releases id r (x y b : Z) s :
  inFrame s = true -> eGrabbed s = qualified s id ->
  (exists s',
     checkMouse id r (event (SDL_MOUSEBUTTONUP x y b) s)
     = Some (if SDL_PointInRect {| px := x; py := y |} r
             then MouseAction.ACTION else MouseAction.CANCEL, s')
     /\ mReleasing s' = true)
  /\ (b <> SDL_BUTTON_LEFT ->
      mLeftPressed (event (SDL_MOUSEBUTTONDOWN x y b) s) = mLeftPressed s
      /\ mPos (event (SDL_MOUSEBUTTONDOWN x y b) s) = {| px := x; py := y |}).
Proof.
  intros Hin Hg. split.
  - eexists. split; [by apply checkMouse_release|done].
  - intros Hb. simpl. apply Z.eqb_neq in Hb. by rewrite Hb.
Qed.

(** X12.  The grabbed element while the button is held: the answer is
    [GRAB] in the frame of the grab, and in a later frame [HOLD] when the
    pointer is inside [rect] and [DRAG] when it is outside; the call sets
    the grabbed flag of the group and changes nothing else. *)
Theorem held_element_answers id r s :
  inFrame s = true -> eGrabbed s = qualified s id -> mLeftPressed s = true ->
  checkMouse id r s
  = Some (if mGrabbing s then MouseAction.GRAB
          else if SDL_PointInRect (mPos s) r then MouseAction.HOLD
          else MouseAction.DRAG,
          set_gGrabbed true s).
Proof.
  intros Hin Hg Hp. unfold checkMouse, SDL_assert. rewrite Hin.
  destruct (empty (eGrabbed s)) eqn:He.
  { apply empty_true in He. rewrite He in Hg.
    symmetry in Hg. by apply qualified_nonempty in Hg. }
  rewrite Hg at 1. rewrite isSameGroupId_qualified. simpl. rewrite Hp.
  destruct (mGrabbing s); [done|].
  by destruct (SDL_PointInRect (mPos s) r).
Qed.

End ClickMore.

(** ** Groups and their flags *)

Section GroupsMore.

Context `{ClipOps}.

Implicit Types (s : State) (g e q id : str) (r : SDL_Rect).

(** The test the code makes on a grabbed or active id against a prefix:
    longer than the prefix, the prefix in front, the separator next. *)
Lemma inGroup_test g e :
  (length g <? length e)%nat
  && str_eqb (take (length g) e) g
  && char_eqb (char_at e (length g)) groupNameSeparator = true
  <-> inGroup g e.
Proof.
  rewrite !andb_true_iff, Nat.ltb_lt, str_eqb_true, char_eqb_true. split.
  - intros [[Hlen Htake] Hc]. exists (drop (length g + 1) e).
    rewrite app_assoc. by apply split_at_char.
  - intros [rest ->]. rewrite take_app_length. simpl.
    rewrite char_at_middle, length_app. simpl. split; [split|]; [lia|done..].
Qed.

Lemma inGroup_test_false g e :
  (length e <=? length g)%nat
  || negb (str_eqb (take (length g) e) g)
  || negb (char_eqb (char_at e (length g)) groupNameSeparator) = false
  <-> inGroup g e.
Proof.
  rewrite <- inGroup_test.
  destruct (Nat.leb_spec (length e) (length g)),
    (Nat.ltb_spec (length g) (length e)); try lia; simpl;
    destruct (str_eqb _ g), (char_eqb _ groupNameSeparator); simpl;
    split; congruence.
Qed.

(** What [endGroup] did when it returned. *)
Lemma endGroup_cases id r s s' :
  endGroup id r s = Some s' ->
  (id = [] /\ group s' = group s)
  \/ (id <> [] /\ group s = id /\ group s' = [])
  \/ (id <> [] /\ (length id < length (group s))%nat
      /\ group s = group s' ++ [groupNameSeparator] ++ id).
Proof.
  intros Hs'. unfold endGroup, SDL_assert in Hs'. cbv zeta in Hs'.
  destruct (empty id) eqn:Hid.
  { apply empty_true in Hid. simplify_eq/=. by left. }
  apply empty_false in Hid. right.
  destruct (length (group s) <=? length id)%nat eqn:Hlen.
  - destruct (str_eqb (group s) id) eqn:Heq; [|done].
    apply str_eqb_true in Heq. left.
    repeat case_match; simplify_eq/=; done.
  - apply Nat.leb_gt in Hlen.
    set (nextSize := (length (group s) - length id - 1)%nat) in *.
    destruct (char_eqb (char_at (group s) nextSize) groupNameSeparator)
      eqn:Hc; [|done].
    destruct (str_eqb (substr_from (nextSize + 1) (group s)) id) eqn:Hd;
      [|done].
    apply char_eqb_true in Hc. apply str_eqb_true in Hd.
    right. split; [done|]. split; [done|].
    assert (group s' = take nextSize (group s)) as ->.
    { repeat case_match; simplify_eq/=; done. }
    assert (length (take nextSize (group s)) = nextSize) as Hn.
    { apply length_take_le. lia. }
    rewrite app_assoc.
    apply split_at_char; rewrite ?Hn, ?take_take, ?Nat.min_id; try done; lia.
Qed.

(** When [endGroup] returns. *)
Lemma endGroup_succeeds id r s :
  id = [] \/ group s = id
  \/ (exists g, group s = g ++ [groupNameSeparator] ++ id) ->
  is_Some (endGroup id r s).
Proof.
  unfold endGroup, SDL_assert.
  destruct (empty id) eqn:Hid; [by eauto|]. apply empty_false in Hid.
  intros [?|[Hg|[g Hg]]]; [done| |].
  - rewrite Hg, Nat.leb_refl, str_eqb_refl. by eauto.
  - assert ((length (group s) <=? length id)%nat = false) as ->.
    { apply Nat.leb_gt. rewrite Hg, !length_app. simpl. lia. }
    assert (length (group s) - length id - 1 = length g)%nat as ->.
    { rewrite Hg, !length_app. simpl. lia. }
    cbv zeta.
    assert (char_eqb (char_at (group s) (length g)) groupNameSeparator = true)
      as ->.
    { rewrite Hg. simpl. rewrite char_at_middle. apply char_eqb_refl. }
    assert (str_eqb (substr_from (length g + 1) (group s)) id = true) as ->.
    { unfold substr_from. rewrite Hg, (app_assoc g).
      rewrite drop_app_length' by (rewrite length_app; simpl; lia).
      apply str_eqb_refl. }
    by eauto.
Qed.

(** X13.  [endGroup(id)] passes its assertions exactly when [id] is
    empty, or the prefix is [id], or the prefix ends with the separator
    and [id]; it then cuts [id] and that separator off the prefix.  An
    id that does not close the prefix in this way aborts the call. *)
Theorem endGroup_checks_suffix id r s :
  (is_Some (endGroup id r s)
   <-> id = [] \/ group s = id
       \/ exists g, group s = g ++ [groupNameSeparator] ++ id)
  /\ (forall s', endGroup id r s = Some s' -> id <> [] ->
        (group s = id /\ group s' = [])
        \/ group s = group s' ++ [groupNameSeparator] ++ id).
Proof.
  split; [split|].
  - intros [s' Hs'].
    destruct (endGroup_cases _ _ _ _ Hs')
      as [[? _]|[(_ & ? & _)|(_ & _ & Hg)]]; eauto.
  - apply endGroup_succeeds.
  - intros s' Hs' Hid.
    destruct (endGroup_cases _ _ _ _ Hs')
      as [[? _]|[(_ & ? & ?)|(_ & _ & Hg)]]; eauto.
    done.
Qed.

(** At the root, a grabbed flag set by [beginGroup] is right. *)
Lemma beginGroup_root_gGrabbed_sound id r s :
  group s = [] -> id <> [] ->
  gGrabbed (beginGroup id r s) = true -> inGroup id (eGrabbed s).
Proof.
  intros Hg Hid. apply empty_false in Hid.
  rewrite beginGroup_gGrabbed, Hid, Hg. simpl.
  unfold substr. rewrite drop_0.
  destruct (_ || _ || _) eqn:Htest; [done|]. intros _.
  by apply inGroup_test_false.
Qed.

(** X14.  At the root, [beginGroup(id)] computes both flags exactly: the
    grabbed flag is set if and only if the grabbed id lies below [id],
    and the active flag if and only if the active id does. *)
Theorem beginGroup_root_flags id r s :
  group s = [] -> id <> [] ->
  (gGrabbed (beginGroup id r s) = true <-> inGroup id (eGrabbed s))
  /\ (gActive (beginGroup id r s) = true <-> inGroup id (eActive s)).
Proof.
  intros Hg Hid. apply empty_false in Hid.
  unfold beginGroup, substr. simpl. rewrite Hid, Hg. simpl.
  rewrite !drop_0.
  pose proof (inGroup_test_false id (eGrabbed s)) as Hgr.
  pose proof (inGroup_test_false id (eActive s)) as Hac.
  destruct (_ || _ || negb (char_eqb (char_at (eGrabbed s) _) _)); simpl;
    destruct (_ || _ || negb (char_eqb (char_at (eActive s) _) _)); simpl;
    split; split; intros; try done;
    try (by apply Hgr); try (by apply Hac);
    try (by apply Hgr in H0); try (by apply Hac in H0).
Qed.

(** A grabbed flag set after leaving a group below another one is
    right, if it was right inside the group. *)
Lemma endGroup_gGrabbed_sound id r s s' :
  endGroup id r s = Some s' -> id <> [] ->
  (length id < length (group s))%nat ->
  (gGrabbed s = true -> inGroup (group s) (eGrabbed s)) ->
  gGrabbed s' = true -> inGroup (group s') (eGrabbed s).
Proof.
  intros Hs' Hid Hlen Hinv.
  pose proof (endGroup_gGrabbed _ _ _ _ Hs') as Hf.
  destruct (endGroup_cases _ _ _ _ Hs')
    as [[? _]|[(_ & Hg & _)|(_ & _ & Hg)]]; [done|rewrite Hg in Hlen; lia|].
  apply empty_false in Hid. rewrite Hid in Hf.
  assert ((length (group s) <=? length id)%nat = false) as Hleb
    by (apply Nat.leb_gt; lia).
  rewrite Hleb in Hf. simpl in Hf.
  assert (length (group s) - length id - 1 = length (group s'))%nat as Hn.
  { rewrite Hg, !length_app. simpl. lia. }
  rewrite Hn in Hf. unfold substr in Hf. rewrite drop_0 in Hf.
  assert (take (length (group s')) (group s) = group s') as Ht.
  { rewrite Hg. apply take_app_length. }
  rewrite Ht in Hf. rewrite Hf.
  destruct (gGrabbed s) eqn:Hold; simpl.
  - intros _. destruct (Hinv eq_refl) as [rest Hrest].
    exists (id ++ [groupNameSeparator] ++ rest).
    rewrite Hrest, Hg. by rewrite <- !app_assoc.
  - destruct (_ && _ && char_eqb _ _) eqn:Htest; [|done].
    intros _. by apply inGroup_test.
Qed.


(** X15.  Leaving a group below another one restores the grabbed flag:
    after [endGroup] the flag is set if and only if it was set inside
    the group or the grabbed id lies below the prefix that is left. *)
Theorem endGroup_restores_gGrabbed id r s s' :
  endGroup id r s = Some s' -> id <> [] ->
  (length id < length (group s))%nat ->
  (gGrabbed s' = true
   <-> gGrabbed s = true \/ inGroup (group s') (eGrabbed s)).
Proof.
  intros Hs' Hid Hlen.
  pose proof (endGroup_gGrabbed _ _ _ _ Hs') as Hf.
  destruct (endGroup_cases _ _ _ _ Hs')
    as [[? _]|[(_ & Hg & _)|(_ & _ & Hg)]]; [done|rewrite Hg in Hlen; lia|].
  apply empty_false in Hid. rewrite Hid in Hf.
  assert ((length (group s) <=? length id)%nat = false) as Hleb
    by (apply Nat.leb_gt; lia).
  rewrite Hleb in Hf. simpl in Hf.
  assert (length (group s) - length id - 1 = length (group s'))%nat as Hn.
  { rewrite Hg, !length_app. simpl. lia. }
  rewrite Hn in Hf.
  assert (take (length (group s')) (group s) = group s') as Ht.
  { rewrite Hg. apply take_app_length. }
  rewrite Ht in Hf. unfold substr in Hf. rewrite drop_0 in Hf.
  pose proof (inGroup_test (group s') (eGrabbed s)) as Htest.
  rewrite Hf.
  destruct (gGrabbed s); simpl.
  - split; [by left|done].
  - destruct (_ && _ && char_eqb _ _).
    + split; [intros _; right; by apply Htest|done].
    + split; [done|]. intros [?|Hin]; [done|]. by apply Htest in Hin.
Qed.

End GroupsMore.

(** ** The grabbed flag, hovering and the frame guard *)

Section FlagsMore.

Context `{ClipOps}.

Implicit Types (s : State) (g e q id : str) (r : SDL_Rect).

Lemma inGroup_qualified s id : inGroup (group s) (qualified s id).
Proof. exists id. unfold qualified. by rewrite <- app_assoc. Qed.

(** A call made in a frame keeps the grabbed flag right: if before it
    the flag is set only when the grabbed id lies below the prefix, the
    same holds after it. *)
Lemma gGrabbed_sound_step o s log s' :
  inFrameOp o = true ->
  (gGrabbed s = true -> inGroup (group s) (eGrabbed s)) ->
  step o s = Some (log, s') ->
  gGrabbed s' = true -> inGroup (group s') (eGrabbed s').
Proof.
  intros Ho Hinv Hs.
  destruct o as [ev|ticks| |id r|id r|id r]; try done; simpl in Hs.
  - simplify_eq.
    by destruct (event_keeps_focus ev s) as (-> & -> & _ & -> & _).
  - destruct (checkMouse id r s) as [[a s1]|] eqn:Hc; simplify_eq/=.
    unfold checkMouse, SDL_assert in Hc.
    destruct (inFrame s); [|done].
    destruct (empty (eGrabbed s)) eqn:He.
    + destruct (mLeftPressed s); simpl in Hc; [|by simplify_eq].
      destruct (SDL_PointInRect (mPos s) r && negb (mGrabbing s)).
      * simplify_eq/=. intros _. apply inGroup_qualified.
      * destruct (isSameGroupId s (eActive s) id); by simplify_eq/=.
    + destruct (isSameGroupId s (eGrabbed s) id) eqn:Hsame; simpl in Hc;
        [|by simplify_eq].
      apply isSameGroupId_spec in Hsame.
      assert (group s' = group s /\ eGrabbed s' = eGrabbed s) as [-> ->].
      { repeat case_match; by simplify_eq/=. }
      intros _. rewrite Hsame. apply inGroup_qualified.
  - simplify_eq. rewrite beginGroup_group.
    destruct (beginGroup_frame id r s) as (_ & -> & _).
    unfold enter.
    destruct (empty id) eqn:Hid.
    { rewrite beginGroup_gGrabbed, Hid. done. }
    apply empty_false in Hid.
    destruct (0 <? length (group s))%nat eqn:Hlen.
    + rewrite beginGroup_below_clears_gGrabbed; [done..|].
      apply Nat.ltb_lt in Hlen. intros Hg. rewrite Hg in Hlen.
      simpl in Hlen. lia.
    + apply Nat.ltb_ge in Hlen.
      assert (group s = []) as Hg by (destruct (group s); [done|simpl in *; lia]).
      rewrite Hg. simpl. intros Hf.
      by apply (beginGroup_root_gGrabbed_sound id r s Hg Hid).
  - destruct (endGroup id r s) as [s1|] eqn:He; simplify_eq/=.
    destruct (endGroup_frame _ _ _ _ He) as (_ & -> & _).
    pose proof (endGroup_gGrabbed _ _ _ _ He) as Hf.
    destruct (endGroup_cases _ _ _ _ He)
      as [[Hid Hg]|[(Hid & Hg & Hg')|(Hid & Hlen & Hg)]].
    + subst id. simpl in Hf. rewrite Hf, Hg. done.
    + apply empty_false in Hid. rewrite Hid, Hg, Nat.leb_refl in Hf.
      by rewrite Hf.
    + by apply (endGroup_gGrabbed_sound _ _ _ _ He Hid Hlen).
Qed.

(** [beginGroup] with an id leaves a grabbed flag that is right, whatever
    the flag was before. *)
Lemma beginGroup_gGrabbed_sound id r s :
  id <> [] ->
  gGrabbed (beginGroup id r s) = true ->
  inGroup (group (beginGroup id r s)) (eGrabbed (beginGroup id r s)).
Proof.
  intros Hid. rewrite beginGroup_group.
  destruct (beginGroup_frame id r s) as (_ & -> & _).
  unfold enter. rewrite (proj2 (empty_false id) Hid).
  destruct (0 <? length (group s))%nat eqn:Hlen.
  - rewrite beginGroup_below_clears_gGrabbed; [done..|].
    apply Nat.ltb_lt in Hlen. intros Hg. rewrite Hg in Hlen.
    simpl in Hlen. lia.
  - apply Nat.ltb_ge in Hlen.
    assert (group s = []) as Hg by (destruct (group s); [done|simpl in *; lia]).
    rewrite Hg. simpl. by apply beginGroup_root_gGrabbed_sound.
Qed.

Lemma gGrabbed_sound_run ops : forall s log s',
  forallb inFrameOp ops = true ->
  (gGrabbed s = true -> inGroup (group s) (eGrabbed s)) ->
  run ops s = Some (log, s') ->
  gGrabbed s' = true -> inGroup (group s') (eGrabbed s').
Proof.
  induction ops as [|o ops IH]; intros s log s' Hops Hinv Hrun; simpl in *.
  - by simplify_eq.
  - apply andb_true_iff in Hops as [Ho Hops].
    destruct (step o s) as [[log1 s1]|] eqn:Hs; simpl in Hrun; [|done].
    destruct (run ops s1) as [[log2 s2]|] eqn:Hr; simplify_eq/=.
    eapply IH; [done| |done]. by eapply gGrabbed_sound_step.
Qed.

(** X16.  Once a group with an id has been entered, the grabbed flag of
    the group is right for the rest of the frame: after [beginGroup(id)]
    and any calls made in a frame, the flag is set only when the grabbed
    id lies below the prefix.  Nothing is assumed of the state before
    the [beginGroup], where the flag can be a leftover of the frame
    before. *)
Theorem gGrabbed_sound_after_beginGroup id r (ops : list Op)
    (log : list Answer) s s' :
  id <> [] ->
  forallb inFrameOp ops = true ->
  run (OpBeginGroup id r :: ops) s = Some (log, s') ->
  gGrabbed s' = true -> inGroup (group s') (eGrabbed s').
Proof.
  intros Hid Hops Hrun. simpl in Hrun.
  destruct (run ops (beginGroup id r s)) as [[log2 s2]|] eqn:Hr;
    simplify_eq/=.
  eapply gGrabbed_sound_run; [done| |done].
  by apply beginGroup_gGrabbed_sound.
Qed.

(** X17.  Hovering.  Closing a group of the root sets the hover flag
    when the pointer is inside its rectangle, and the state then wants
    the mouse; closing a group below another one leaves the flag alone;
    no call of a frame clears the flag; [beginFrame] clears it. *)
Theorem hovering_within_a_frame r s :
  (forall id, id <> [] -> group s = id ->
     exists s', endGroup id r s = Some s'
                /\ mHovering s'
                   = (mHovering s || SDL_PointInRect (mPos s) r)
                /\ (SDL_PointInRect (mPos s) r = true ->
                    wantsMouse s' = true))
  /\ (forall id s', endGroup id r s = Some s' ->
        (length id < length (group s))%nat -> mHovering s' = mHovering s)
  /\ (forall o log s', inFrameOp o = true -> step o s = Some (log, s') ->
        mHovering s = true -> mHovering s' = true)
  /\ (forall ticks s', beginFrame ticks s = Some s' -> mHovering s' = false).
Proof.
  split; [|split; [|split]].
  - intros id Hid Hg. apply empty_false in Hid.
    unfold endGroup, SDL_assert.
    rewrite Hid, Hg, Nat.leb_refl, str_eqb_refl. simpl.
    eexists. split; [reflexivity|].
    destruct (mHovering s) eqn:Hh, (SDL_PointInRect (mPos s) r) eqn:Hp;
      simpl; (split; [done|]); intros Hp'; try done;
      unfold wantsMouse; simpl; by rewrite ?Hh.
  - intros id s' Hs' Hlen. unfold endGroup, SDL_assert in Hs'.
    apply Nat.leb_gt in Hlen. rewrite Hlen in Hs'.
    repeat case_match; by simplify_eq/=.
  - intros o log s' Ho Hs Hh.
    destruct o as [ev|ticks| |id r'|id r'|id r']; try done; simpl in Hs.
    + simplify_eq.
      by destruct (event_keeps_focus ev s) as (_ & _ & _ & _ & _ & -> & _).
    + destruct (checkMouse id r' s) as [[a s1]|] eqn:Hc; simplify_eq/=.
      unfold checkMouse, SDL_assert in Hc.
      repeat case_match; by simplify_eq/=.
    + simplify_eq. unfold beginGroup. simpl. repeat case_match; done.
    + destruct (endGroup id r' s) as [s1|] eqn:He; simplify_eq/=.
      unfold endGroup, SDL_assert in He.
      repeat case_match; by simplify_eq/=.
  - intros ticks s'. unfold beginFrame, SDL_assert.
    destruct (inFrame s); intros; by simplify_eq/=.
Qed.

(** X18.  The frame guard.  From a state outside a frame, [lockFrame]
    opens a frame; properly nested calls then run to the end;
    [unlockFrame] closes the frame; and one more [unlockFrame], as the
    destructor makes, changes nothing.  Inside a frame [lockFrame]
    aborts. *)
Theorem frame_guard_ends_once (ticks : Z) (body : list Op) s :
  nested body ->
  (inFrame s = false ->
   exists c s1 log s2 c' s3,
     lockFrame ticks s = Some (c, s1)
     /\ run body s1 = Some (log, s2)
     /\ unlockFrame c s2 = Some (c', s3)
     /\ inFrame s3 = false
     /\ unlockFrame c' s3 = Some (c', s3))
  /\ (inFrame s = true -> lockFrame ticks s = None).
Proof.
  intros Hbody. split.
  - intros Hin. unfold lockFrame, beginFrame, SDL_assert. rewrite Hin. simpl.
    eexists _, _.
    edestruct (run_nested body Hbody) as (log & s2 & Hrun & _ & Hin2);
      [|exists log, s2; eexists _, _; split; [reflexivity|];
        split; [exact Hrun|]].
    + done.
    + unfold unlockFrame, endFrame, SDL_assert. simpl. rewrite Hin2. simpl.
      split; [reflexivity|]. split; [|done].
      simpl. by destruct (mReleasing s2).
  - intros Hin. unfold lockFrame, beginFrame, SDL_assert. by rewrite Hin.
Qed.

End FlagsMore.

(** ** Measuring text *)

Section MeasureMore.

Lemma to_int_small (z : Z) : - 2 ^ 31 <= z < 2 ^ 31 -> to_int z = z.
Proof. intros Hz. unfold to_int. rewrite Z.mod_small; lia. Qed.

Lemma shl_small (a b : Z) :
  0 <= a -> 0 <= b -> a * 2 ^ b < 2 ^ 31 -> shl a b = a * 2 ^ b.
Proof.
  intros Ha Hb Hlt. unfold shl. rewrite Z.shiftl_mul_pow2 by done.
  apply to_int_small. split; [|done].
  assert (0 <= a * 2 ^ b) by (apply Z.mul_nonneg_nonneg; lia). lia.
Qed.

(** X19.  Without overflow, a text is as wide as its characters side by
    side and as high as one character: for a font with non-negative cell
    sizes and a scale whose results fit an [int], the width of a text is
    its length times the scaled cell width, and the width of two texts
    joined is the sum of their widths. *)
Theorem measure_is_length_times_cell (a b : str) (ch : ascii)
    (font : Font) (scale : Z) :
  0 <= charW font -> 0 <= charH font -> 0 <= scale ->
  charH font * 2 ^ scale < 2 ^ 31 ->
  charW font * 2 ^ scale < 2 ^ 31 ->
  charW font * 2 ^ scale * Z.of_nat (length (a ++ b)) < 2 ^ 31 ->
  measureChar ch font scale
  = {| px := charW font * 2 ^ scale; py := charH font * 2 ^ scale |}
  /\ measure (a ++ b) font scale
     = {| px := charW font * 2 ^ scale * Z.of_nat (length (a ++ b));
          py := charH font * 2 ^ scale |}
  /\ px (measure (a ++ b) font scale)
     = px (measure a font scale) + px (measure b font scale)
  /\ py (measure (a ++ b) font scale) = py (measureChar ch font scale).
Proof.
  intros Hw Hh Hs HH HW Hab.
  assert (0 <= charW font * 2 ^ scale) as Hw0
    by (apply Z.mul_nonneg_nonneg; lia).
  assert (forall t : str,
            (length t <= length (a ++ b))%nat ->
            measure t font scale
            = {| px := charW font * 2 ^ scale * Z.of_nat (length t);
                 py := charH font * 2 ^ scale |}) as Hm.
  { intros t Ht. unfold measure, to_size_t.
    rewrite !shl_small by done.
    assert (0 <= charW font * 2 ^ scale * Z.of_nat (length t)
            <= charW font * 2 ^ scale * Z.of_nat (length (a ++ b))) as Hb.
    { split; [apply Z.mul_nonneg_nonneg; lia|].
      apply Z.mul_le_mono_nonneg_l; lia. }
    rewrite (Z.mod_small (charW font * 2 ^ scale)) by lia.
    rewrite Z.mod_small by lia.
    rewrite to_int_small by lia. done. }
  unfold measureChar. rewrite !shl_small by done.
  split; [done|]. split; [by apply Hm|]. split; [|by rewrite Hm].
  rewrite !Hm by (rewrite ?length_app; lia). simpl.
  rewrite length_app. lia.
Qed.

End MeasureMore.

(** * The further properties on concrete states *)

Lemma text_action_lifetime_witness :
  (checkText (event (SDL_KEYDOWN SDLK_BACKSPACE) idleActiveState) btn
   = TextAction.BACKSPACE
   /\ tBuffer (event (SDL_KEYDOWN SDLK_BACKSPACE) idleActiveState)
      = tBuffer idleActiveState)
  /\ (forall text,
        checkText (event (SDL_TEXTINPUT text) idleActiveState) btn
        = TextAction.INPUT)
  /\ (forall ev id', id' <> btn ->
        checkText (event ev idleActiveState) id' = TextAction.NONE)
  /\ (forall ev s', endFrame (event ev idleActiveState) = Some s' ->
        checkText s' btn = TextAction.NONE).
Proof. apply (text_action_lifetime idleActiveState btn). reflexivity. Defined.

Lemma text_input_normalized_witness :
  getText (event (SDL_TEXTINPUT
                    ([ascii_of_nat 97; ascii_of_nat 195; ascii_of_nat 169]
                     ++ Ascii.zero :: []))
                 idleActiveState)
  = [ascii_of_nat 97; ascii_of_nat 15].
Proof.
  destruct (text_input_normalized idleActiveState
              [ascii_of_nat 97; ascii_of_nat 195; ascii_of_nat 169] [])
    as [Hget _].
  - discriminate.
  - repeat constructor; discriminate.
  - simpl. unfold SDL_TEXTINPUTEVENT_TEXT_SIZE. lia.
  - simpl. unfold SDL_TEXTINPUTEVENT_TEXT_SIZE. lia.
  - exact Hget.
Defined.

Lemma frame_flags_clear_between_frames_witness :
  mGrabbing (set_mGrabbing false
               (set_tChanged false (set_inFrame false grabbedState))) = false
  /\ mReleasing (set_mGrabbing false
                   (set_tChanged false (set_inFrame false grabbedState)))
     = false.
Proof.
  apply (@frame_flags_clear_between_frames noClip
           [OpEvent (SDL_MOUSEBUTTONDOWN 15 15 SDL_BUTTON_LEFT);
            OpBeginFrame 0; OpCheckMouse btn btnRect; OpEndFrame]
           initial [(lit "/btn", MouseAction.GRAB)]).
  - intros _. split; reflexivity.
  - vm_compute. reflexivity.
  - reflexivity.
Defined.

Lemma grabbed_is_active_witness :
  (eGrabbed grabbedState = [] \/ eActive grabbedState = eGrabbed grabbedState)
  /\ (eGrabbed grabbedState <> [] ->
      wantsMouse grabbedState = true /\ wantsKeyboard grabbedState = true).
Proof.
  apply (@grabbed_is_active noClip
           [OpEvent (SDL_MOUSEBUTTONDOWN 15 15 SDL_BUTTON_LEFT);
            OpBeginFrame 0; OpCheckMouse btn btnRect]
           initial [(lit "/btn", MouseAction.GRAB)]).
  - left. reflexivity.
  - vm_compute. reflexivity.
Defined.

Lemma click_cycle_witness :
  exists s',
    @run noClip
      [OpEvent (SDL_MOUSEBUTTONDOWN 15 15 SDL_BUTTON_LEFT);
       OpBeginFrame 0; OpCheckMouse btn btnRect; OpEndFrame;
       OpEvent (SDL_MOUSEBUTTONUP 5 5 SDL_BUTTON_LEFT);
       OpBeginFrame 1; OpCheckMouse btn btnRect; OpEndFrame] initial
    = Some ([(qualified initial btn, MouseAction.GRAB);
             (qualified initial btn,
              if SDL_PointInRect {| px := 5; py := 5 |} btnRect
              then MouseAction.ACTION else MouseAction.CANCEL)], s')
    /\ eGrabbed s' = [] /\ eActive s' = qualified initial btn
    /\ inFrame s' = false /\ isActive s' btn = true.
Proof.
  apply (@click_cycle noClip btn btnRect 15 15 5 5 SDL_BUTTON_LEFT 0 1 initial);
    reflexivity.
Defined.

Lemma any_button_up_releases_witness :
  (exists s',
     checkMouse btn btnRect (event (SDL_MOUSEBUTTONUP 15 15 3) heldState)
     = Some (if SDL_PointInRect {| px := 15; py := 15 |} btnRect
             then MouseAction.ACTION else MouseAction.CANCEL, s')
     /\ mReleasing s' = true)
  /\ (3 <> SDL_BUTTON_LEFT ->
      mLeftPressed (event (SDL_MOUSEBUTTONDOWN 15 15 3) heldState)
      = mLeftPressed heldState
      /\ mPos (event (SDL_MOUSEBUTTONDOWN 15 15 3) heldState)
         = {| px := 15; py := 15 |}).
Proof.
  apply (any_button_up_releases btn btnRect 15 15 3 heldState); reflexivity.
Defined.

Lemma held_element_answers_witness :
  checkMouse btn btnRect heldState
  = Some (MouseAction.HOLD, set_gGrabbed true heldState).
Proof.
  apply (held_element_answers btn btnRect heldState); reflexivity.
Defined.

Lemma beginGroup_root_flags_witness :
  (gGrabbed (@beginGroup noClip (lit "panel") btnRect panelState) = true
   <-> inGroup (lit "panel") (eGrabbed panelState))
  /\ (gActive (@beginGroup noClip (lit "panel") btnRect panelState) = true
      <-> inGroup (lit "panel") (eActive panelState)).
Proof.
  apply (@beginGroup_root_flags noClip (lit "panel") btnRect panelState).
  - reflexivity.
  - discriminate.
Defined.

Lemma endGroup_restores_gGrabbed_witness :
  gGrabbed (set_gGrabbed true (set_group (lit "panel")
              (@beginGroup noClip (lit "list") btnRect
                 (@beginGroup noClip (lit "panel") btnRect panelState))))
  = true
  <-> gGrabbed (@beginGroup noClip (lit "list") btnRect
                  (@beginGroup noClip (lit "panel") btnRect panelState))
      = true
      \/ inGroup
           (group (set_gGrabbed true (set_group (lit "panel")
                     (@beginGroup noClip (lit "list") btnRect
                        (@beginGroup noClip (lit "panel") btnRect
                           panelState)))))
           (eGrabbed (@beginGroup noClip (lit "list") btnRect
                        (@beginGroup noClip (lit "panel") btnRect
                           panelState))).
Proof.
  apply (@endGroup_restores_gGrabbed noClip (lit "list") btnRect
           (@beginGroup noClip (lit "list") btnRect
              (@beginGroup noClip (lit "panel") btnRect panelState))).
  - vm_compute. reflexivity.
  - discriminate.
  - vm_compute. lia.
Defined.

Lemma gGrabbed_sound_after_beginGroup_witness :
  inGroup (lit "panel") (lit "panel/btn").
Proof.
  apply (@gGrabbed_sound_after_beginGroup noClip (lit "panel") btnRect
           [OpCheckMouse btn btnRect]
           [(lit "panel/btn", MouseAction.GRAB)]
           (set_gGrabbed true pressedState)
           (set_mGrabbing true (set_gActive true (set_gGrabbed true
              (set_eActive (lit "panel/btn") (set_eGrabbed (lit "panel/btn")
                 (@beginGroup noClip (lit "panel") btnRect
                    (set_gGrabbed true pressedState))))))));
    [discriminate|reflexivity..].
Defined.

Lemma frame_guard_ends_once_witness :
  (inFrame initial = false ->
   exists c s1 log s2 c' s3,
     lockFrame 0 initial = Some (c, s1)
     /\ @run noClip [OpCheckMouse btn btnRect] s1 = Some (log, s2)
     /\ unlockFrame c s2 = Some (c', s3)
     /\ inFrame s3 = false
     /\ unlockFrame c' s3 = Some (c', s3))
  /\ (inFrame initial = true -> lockFrame 0 initial = None).
Proof.
  apply (@frame_guard_ends_once noClip 0 [OpCheckMouse btn btnRect] initial).
  apply nested_check, nested_nil.
Defined.

Lemma measure_is_length_times_cell_witness :
  measureChar (ascii_of_nat 97) defaultFont 1 = {| px := 16; py := 16 |}
  /\ measure (lit "Hello" ++ lit " world") defaultFont 1
     = {| px := 176; py := 16 |}.
Proof.
  destruct (measure_is_length_times_cell (lit "Hello") (lit " world")
              (ascii_of_nat 97) defaultFont 1)
    as (Hc & Hm & _); try (vm_compute; congruence).
  split; [exact Hc|exact Hm].
Defined.

(** ** The prefix of nested groups *)

Section PrefixMore.

Context `{ClipOps}.

Implicit Types (s : State) (g id : str) (r : SDL_Rect).

Lemma enter_below g (ids : list str) :
  g <> [] ->
  Forall (fun id => id <> []) ids ->
  foldl enter g ids
  = g ++ flat_map (fun id' => groupNameSeparator :: id') ids.
Proof.
  intros Hg Hids. revert g Hg.
  induction Hids as [|id ids Hid _ IH]; intros g Hg; simpl.
  - by rewrite app_nil_r.
  - assert (enter g id = (g ++ [groupNameSeparator]) ++ id) as ->.
    { unfold enter. apply empty_false in Hid. rewrite Hid.
      destruct g; [done|]. done. }
    rewrite IH by (by destruct g).
    by rewrite <- !app_assoc.
Qed.

Lemma beginGroup_fold (ids : list str) r s :
  group (foldl (fun s id => beginGroup id r s) s ids)
  = foldl enter (group s) ids.
Proof.
  revert s. induction ids as [|id ids IH]; intros s; simpl; [done|].
  by rewrite IH, beginGroup_group.
Qed.

Lemma enter_skips_empty g (ids : list str) :
  foldl enter g ids
  = foldl enter g (List.filter (fun id => negb (empty id)) ids).
Proof.
  revert g. induction ids as [|id ids IH]; intros g; simpl; [done|].
  destruct (empty id) eqn:Hid; simpl.
  - unfold enter at 2. rewrite Hid. apply IH.
  - apply IH.
Qed.

(** Entering groups leaves the frame flag, the grabbed id and the mouse
    alone. *)
Lemma beginGroup_fold_keeps (ids : list str) r s :
  inFrame (foldl (fun s id => beginGroup id r s) s ids) = inFrame s
  /\ eGrabbed (foldl (fun s id => beginGroup id r s) s ids) = eGrabbed s
  /\ mLeftPressed (foldl (fun s id => beginGroup id r s) s ids)
     = mLeftPressed s
  /\ mGrabbing (foldl (fun s id => beginGroup id r s) s ids) = mGrabbing s
  /\ mPos (foldl (fun s id => beginGroup id r s) s ids) = mPos s.
Proof.
  revert s. induction ids as [|id1 ids IH]; intros s; simpl; [done|].
  destruct (IH (beginGroup id1 r s)) as (-> & -> & -> & -> & ->).
  unfold beginGroup. simpl. repeat case_match; done.
Qed.

(** X20.  Entering groups one inside the other from the root builds the
    path of their ids: the prefix is the first id, then each further id
    behind a separator; calls with an empty id add nothing.  An element
    grabbed there gets that path, a separator and its own id (at the
    root: a separator and its id). *)
Theorem nested_prefix_is_joined_path (ids : list str) id r r' s :
  group s = [] -> inFrame s = true -> eGrabbed s = [] ->
  mLeftPressed s = true -> mGrabbing s = false ->
  SDL_PointInRect (mPos s) r' = true ->
  group (foldl (fun s id => beginGroup id r s) s ids)
  = joinPath (List.filter (fun id => negb (empty id)) ids)
  /\ exists s',
       checkMouse id r' (foldl (fun s id => beginGroup id r s) s ids)
       = Some (MouseAction.GRAB, s')
       /\ eGrabbed s'
          = joinPath (List.filter (fun id => negb (empty id)) ids)
            ++ [groupNameSeparator] ++ id.
Proof.
  intros Hg Hin He Hp Hm Hr.
  assert (group (foldl (fun s id => beginGroup id r s) s ids)
          = joinPath (List.filter (fun id => negb (empty id)) ids)) as Hpath.
  { rewrite beginGroup_fold, Hg, enter_skips_empty.
    destruct (List.filter _ ids) as [|id1 rest] eqn:Hf; [done|].
    assert (Forall (fun id => id <> []) (id1 :: rest)) as Hne.
    { rewrite <- Hf. apply List.Forall_forall.
      intros x [_ Hx]%List.filter_In. apply empty_false.
      by apply negb_true_iff. }
    apply Forall_cons in Hne as [Hid1 Hrest].
    simpl. unfold enter at 2. apply empty_false in Hid1. rewrite Hid1. simpl.
    apply enter_below; [by apply empty_false|done]. }
  split; [done|].
  destruct (beginGroup_fold_keeps ids r s) as (Hin' & He' & Hp' & Hm' & Hpos').
  eexists. split.
  - apply checkMouse_grab; congruence.
  - simpl. unfold qualified. rewrite Hpath. by rewrite <- app_assoc.
Qed.

End PrefixMore.

Lemma nested_prefix_is_joined_path_witness :
  group (foldl (fun s id => @beginGroup noClip id btnRect s) pressedState
           [lit "panel"; []; lit "list"])
  = lit "panel/list"
  /\ exists s',
       checkMouse btn btnRect
         (foldl (fun s id => @beginGroup noClip id btnRect s) pressedState
            [lit "panel"; []; lit "list"])
       = Some (MouseAction.GRAB, s')
       /\ eGrabbed s' = lit "panel/list/btn".
Proof.
  apply (@nested_prefix_is_joined_path noClip
           [lit "panel"; []; lit "list"] btn btnRect btnRect pressedState);
    reflexivity.
Defined.
